(** * PPU device plugin: a shallow embedding of the protocol engine

    The Go package [deviceplugin] keeps a registry [map[string]*v1beta1.Device]
    whose values are pointers into the Go heap.  The health monitor and the
    watch session both reach device records through those pointers, so the
    embedding keeps an explicit store ([heap]) and lets the registry map ids
    to addresses.  Dereferencing an address that is not allocated stands for
    a nil-pointer panic and is rendered as [None].

    Logging has no effect on any value the package returns and is left out.
    Go's [int] is 64 bits wide; every integer handled below is a list length
    or a loop index bounded by one, so arithmetic is done in [Z] without
    wrap-around. *)

From stdpp Require Import gmap strings list fin_maps pretty.

#[local] Set Warnings "-clear-no-such-hyp".

Local Open Scope string_scope.
Local Open Scope list_scope.
Local Open Scope Z_scope.

(** ** The kubelet API types used by the plugin (package v1beta1) *)

Module v1beta1.

Definition Healthy : string := "Healthy".
Definition Unhealthy : string := "Unhealthy".

Record Device := mkDevice { ID : string; Health : string }.

Record DeviceSpec := mkDeviceSpec {
  ContainerPath : string;
  HostPath : string;
  Permissions : string
}.

Record Mount := mkMount {
  mount_ContainerPath : string;
  mount_HostPath : string;
  mount_ReadOnly : bool
}.

Record ContainerAllocateRequest := mkContainerAllocateRequest {
  DevicesIDs : list string
}.

Record AllocateRequest := mkAllocateRequest {
  alloc_ContainerRequests : list ContainerAllocateRequest
}.

Record ContainerAllocateResponse := mkContainerAllocateResponse {
  Envs : gmap string string;
  Mounts : list Mount;
  Devices : list DeviceSpec;
  Annotations : gmap string string
}.

Record AllocateResponse := mkAllocateResponse {
  alloc_ContainerResponses : list ContainerAllocateResponse
}.

(** [AllocationSize] is an [int32] on the wire. *)
Record ContainerPreferredAllocationRequest := mkContainerPreferredAllocationRequest {
  AvailableDeviceIDs : list string;
  MustIncludeDeviceIDs : list string;
  AllocationSize : Z
}.

Record PreferredAllocationRequest := mkPreferredAllocationRequest {
  pref_ContainerRequests : list ContainerPreferredAllocationRequest
}.

Record ContainerPreferredAllocationResponse := mkContainerPreferredAllocationResponse {
  DeviceIDs : list string
}.

Record PreferredAllocationResponse := mkPreferredAllocationResponse {
  pref_ContainerResponses : list ContainerPreferredAllocationResponse
}.

(** The message a watch stream carries, as it is serialised by [Send]:
    the records the pointers lead to at that moment. *)
Record ListAndWatchResponse := mkListAndWatchResponse {
  lw_Devices : list Device
}.

#[global] Instance Device_eq_dec : EqDecision Device.
Proof. solve_decision. Defined.

#[global] Instance DeviceSpec_eq_dec : EqDecision DeviceSpec.
Proof. solve_decision. Defined.

End v1beta1.

Import v1beta1.

(** ** The store behind [*v1beta1.Device] *)

Abbreviation addr := nat (only parsing).
Abbreviation heap := (list Device) (only parsing).

(** Go's [error]: [None] is [nil]. *)
Abbreviation error := (option string) (only parsing).
Definition nil_error : error := None.

(** [&v1beta1.Device{...}]: a fresh cell at the end of the store. *)
Definition alloc (h : heap) (d : Device) : heap * addr := (h ++ [d], length h).

(** [ptr.Health = v] *)
Definition setHealth (h : heap) (ptr : addr) (v : string) : option heap :=
  d ← h !! ptr; Some (<[ptr := mkDevice (ID d) v]> h).

(** ** Library functions the package calls *)

(** [fmt.Sprintf("%d", n)] *)
Definition Sprintf_d (n : Z) : string := pretty n.

(** [strings.Join(elems, sep)] *)
Fixpoint Join (elems : list string) (sep : string) : string :=
  match elems with
  | [] => ""
  | x :: rest =>
      match rest with
      | [] => x
      | _ :: _ => x +:+ sep +:+ Join rest sep
      end
  end.

(** Go leaves the order in which [range] visits a map unspecified and varies
    it from one loop to the next; every entry is visited exactly once.  A
    loop over a map is therefore modelled as a loop over any list of entries
    that is a visiting order of the map. *)
Definition range_order (m : gmap string addr) (kvs : list (string * addr)) : Prop :=
  kvs ≡ₚ map_to_list m.

(** ** Package deviceplugin *)

Record PPUDevicePlugin := mkPPUDevicePlugin {
  resourceName : string;
  deviceCount : Z;
  socketPath : string;
  devices : gmap string addr
}.

Definition set_devices (p : PPUDevicePlugin) (m : gmap string addr) : PPUDevicePlugin :=
  mkPPUDevicePlugin (resourceName p) (deviceCount p) (socketPath p) m.

Definition NewPPUDevicePlugin (resourceName : string) (deviceCount : Z)
    (socketPath : string) : PPUDevicePlugin :=
  mkPPUDevicePlugin resourceName deviceCount socketPath ∅.

(** *** initDevices *)

(** [fmt.Sprintf("ppu-%d", i)] *)
Definition ppuID (i : Z) : string := "ppu-" +:+ Sprintf_d i.

(** One iteration of [for i := 0; i < p.deviceCount; i++]. *)
Definition initDevices_body (st : heap * PPUDevicePlugin) (i : Z) : heap * PPUDevicePlugin :=
  let deviceID := ppuID i in
  let '(h', device) := alloc st.1 (mkDevice deviceID Healthy) in
  (h', set_devices st.2 (<[deviceID := device]> (devices st.2))).

(** The loop runs for i = 0, 1, ..., deviceCount - 1 (not at all when the
    count is zero or negative) and the function then returns [nil]. *)
Definition initDevices (h : heap) (p : PPUDevicePlugin) : heap * PPUDevicePlugin * error :=
  (foldl initDevices_body (h, p) (seqZ 0 (deviceCount p)), nil_error).

(** *** Allocate *)

(** The inner loop over [containerRequest.DevicesIDs]. *)
Fixpoint allocatedDevices_loop (h : heap) (p : PPUDevicePlugin)
    (ids : list string) (allocatedDevices : list string) : option (list string) :=
  match ids with
  | [] => Some allocatedDevices
  | deviceID :: rest =>
      match devices p !! deviceID with
      | Some ptr =>
          device ← h !! ptr;
          if decide (Health device = Healthy)
          then allocatedDevices_loop h p rest (allocatedDevices ++ [deviceID])
          else allocatedDevices_loop h p rest allocatedDevices
      | None => allocatedDevices_loop h p rest allocatedDevices
      end
  end.

Definition allocatedDevices (h : heap) (p : PPUDevicePlugin)
    (containerRequest : ContainerAllocateRequest) : option (list string) :=
  allocatedDevices_loop h p (DevicesIDs containerRequest) [].

Definition deviceSpec (deviceID : string) : DeviceSpec :=
  mkDeviceSpec ("/dev/" +:+ deviceID) "/dev/null" "rw".

(** The response built from the allocated ids, with the loop that appends
    one device spec per allocated id. *)
Definition containerResponse (allocatedDevices : list string) : ContainerAllocateResponse :=
  mkContainerAllocateResponse
    (<["PPU_DEVICE_COUNT" := Sprintf_d (Z.of_nat (length allocatedDevices))]>
       (<["PPU_ALLOCATED_DEVICES" := Join allocatedDevices ","]> ∅))
    []
    (foldl (λ specs deviceID, specs ++ [deviceSpec deviceID]) [] allocatedDevices)
    (<["ppu.alibabacloud.com/allocated-devices" := Join allocatedDevices ","]> ∅).

Fixpoint Allocate_loop (h : heap) (p : PPUDevicePlugin)
    (reqs : list ContainerAllocateRequest)
    (responses : list ContainerAllocateResponse) : option (list ContainerAllocateResponse) :=
  match reqs with
  | [] => Some responses
  | containerRequest :: rest =>
      allocated ← allocatedDevices h p containerRequest;
      Allocate_loop h p rest (responses ++ [containerResponse allocated])
  end.

Definition Allocate (h : heap) (p : PPUDevicePlugin) (request : AllocateRequest)
    : option (AllocateResponse * error) :=
  responses ← Allocate_loop h p (alloc_ContainerRequests request) [];
  Some (mkAllocateResponse responses, nil_error).

(** *** GetPreferredAllocation *)

(** The search [for _, selectedID := range selectedDeviceIDs] with its
    [break]. *)
Fixpoint alreadySelected (selectedDeviceIDs : list string) (deviceID : string) : bool :=
  match selectedDeviceIDs with
  | [] => false
  | selectedID :: rest =>
      if decide (selectedID = deviceID) then true else alreadySelected rest deviceID
  end.

(** The loop over [containerRequest.AvailableDeviceIDs]. *)
Fixpoint selectAvailable (available : list string) (selectedDeviceIDs : list string)
    (needed : Z) : list string :=
  match available with
  | [] => selectedDeviceIDs
  | deviceID :: rest =>
      if decide (needed ≤ 0) then selectedDeviceIDs
      else if alreadySelected selectedDeviceIDs deviceID
           then selectAvailable rest selectedDeviceIDs needed
           else selectAvailable rest (selectedDeviceIDs ++ [deviceID]) (needed - 1)
  end.

Definition selectedDeviceIDs (containerRequest : ContainerPreferredAllocationRequest)
    : list string :=
  let seeded := foldl (λ sel deviceID, sel ++ [deviceID]) []
                      (MustIncludeDeviceIDs containerRequest) in
  let needed := AllocationSize containerRequest - Z.of_nat (length seeded) in
  selectAvailable (AvailableDeviceIDs containerRequest) seeded needed.

Definition GetPreferredAllocation (p : PPUDevicePlugin)
    (request : PreferredAllocationRequest) : PreferredAllocationResponse * error :=
  (mkPreferredAllocationResponse
     (foldl (λ responses containerRequest,
               responses ++ [mkContainerPreferredAllocationResponse
                               (selectedDeviceIDs containerRequest)])
            [] (pref_ContainerRequests request)),
   nil_error).

(** *** ListAndWatch *)

(** The loop that copies the registry's pointers into a fresh slice, in the
    order [range] visits the map. *)
Definition deviceList (order : list (string * addr)) : list addr :=
  foldl (λ devs kv, devs ++ [kv.2]) [] order.

(** [stream.Send] serialises the records the pointers lead to. *)
Definition marshal (h : heap) (ptrs : list addr) : option ListAndWatchResponse :=
  ds ← mapM (λ ptr : addr, h !! ptr) ptrs;
  Some (mkListAndWatchResponse ds).

(** The body of [case device := <-p.health] up to the resend: the health
    carried by the received record is stored into the registry entry that
    has the record's id, when there is one. *)
Definition updateDevice (h : heap) (p : PPUDevicePlugin) (device : addr) : option heap :=
  d ← h !! device;
  match devices p !! ID d with
  | Some existingDevice => setHealth h existingDevice (Health d)
  | None => Some h
  end.

(** What one pass through [select] finds: a record on [p.health], or [p.stop]
    closed.  Each pass comes with the order in which [range] will visit the
    registry and with the result [stream.Send] will give. *)
Inductive ready_case :=
  | recvHealth (device : addr)
  | recvStop.

Record wakeup := mkWakeup {
  w_case : ready_case;
  w_order : list (string * addr);
  w_sendErr : error
}.

(** How a call of [ListAndWatch] ends: it returned (with [nil] or with the
    transport error), or it is still blocked in [select]. *)
Inductive watch_end :=
  | returned (err : error)
  | blocked.

Fixpoint ListAndWatch_loop (h : heap) (p : PPUDevicePlugin) (ws : list wakeup)
    (sent : list ListAndWatchResponse)
    : option (heap * list ListAndWatchResponse * watch_end) :=
  match ws with
  | [] => Some (h, sent, blocked)
  | w :: rest =>
      match w_case w with
      | recvHealth device =>
          h' ← updateDevice h p device;
          updateResponse ← marshal h' (deviceList (w_order w));
          match w_sendErr w with
          | Some err => Some (h', sent, returned (Some err))
          | None => ListAndWatch_loop h' p rest (sent ++ [updateResponse])
          end
      | recvStop => Some (h, sent, returned nil_error)
      end
  end.

Definition ListAndWatch (h : heap) (p : PPUDevicePlugin)
    (order : list (string * addr)) (sendErr : error) (ws : list wakeup)
    : option (heap * list ListAndWatchResponse * watch_end) :=
  response ← marshal h (deviceList order);
  match sendErr with
  | Some err => Some (h, [], returned (Some err))
  | None => ListAndWatch_loop h p ws [response]
  end.

(** *** startHealthCheck *)

(** What became of one [select { case p.health <- device: ... default: ... }]:
    the record was handed to a receiver, or the update was skipped. *)
Inductive emission :=
  | sent_update (device : addr)
  | skipped_update (device : addr).

Definition emitted (e : emission) : addr :=
  match e with sent_update device | skipped_update device => device end.

(** The send on the unbuffered channel [p.health] goes through exactly when a
    receiver is waiting at that moment; [receiver] lists, attempt by attempt,
    whether one is (none once the list is used up). *)
Definition trySend (device : addr) (receiver : list bool) : emission * list bool :=
  match receiver with
  | true :: receiver' => (sent_update device, receiver')
  | false :: receiver' => (skipped_update device, receiver')
  | [] => (skipped_update device, [])
  end.

(** The body of [case <-ticker.C]: the range over the registry. *)
Fixpoint healthCheck_loop (h : heap) (order : list (string * addr))
    (receiver : list bool) (out : list emission) : option (heap * list emission) :=
  match order with
  | [] => Some (h, out)
  | (deviceID, device) :: rest =>
      d ← h !! device;
      if decide (Health d ≠ Healthy) then
        h' ← setHealth h device Healthy;
        let '(e, receiver') := trySend device receiver in
        healthCheck_loop h' rest receiver' (out ++ [e])
      else healthCheck_loop h rest receiver out
  end.

Definition healthCheck (h : heap) (p : PPUDevicePlugin)
    (order : list (string * addr)) (receiver : list bool) : option (heap * list emission) :=
  healthCheck_loop h order receiver [].

(** ** The registry invariant

    Every pointer stored in the registry leads to an allocated record whose
    [ID] is the key it is stored under. *)
Definition wf (h : heap) (p : PPUDevicePlugin) : Prop :=
  map_Forall (λ (k : string) (a : addr), ID <$> h !! a = Some k) (devices p).

#[global] Instance wf_dec h p : Decision (wf h p).
Proof. unfold wf. apply _. Defined.

(** The health the registry holds for an id, read through the pointer. *)
Definition healthOf (h : heap) (p : PPUDevicePlugin) (deviceID : string) : option string :=
  ptr ← devices p !! deviceID; Health <$> h !! ptr.

(** An id is allocatable when the registry has it and the record behind its
    pointer is Healthy. *)
Definition registeredHealthy (h : heap) (p : PPUDevicePlugin) (deviceID : string) : Prop :=
  healthOf h p deviceID = Some Healthy.

#[global] Instance registeredHealthy_dec h p deviceID :
  Decision (registeredHealthy h p deviceID).
Proof. unfold registeredHealthy. apply _. Defined.

(** How often a value occurs in a list. *)
Definition occurrences {A} `{EqDecision A} (x : A) (l : list A) : nat :=
  length (filter (λ y, y = x) l).

(** ** The preferred-allocation algorithm as the specification words it

    Seed the result with the must-include ids; let remaining be the desired
    count minus the length of the result; walk the available ids in order,
    appending each id not yet in the result and decrementing remaining, and
    stop as soon as remaining is zero or less. *)
Fixpoint spec_walk (remaining : Z) (result : list string) (available : list string)
    : list string :=
  if bool_decide (remaining ≤ 0) then result
  else match available with
       | [] => result
       | id :: rest =>
           if bool_decide (id ∈ result)
           then spec_walk remaining result rest
           else spec_walk (remaining - 1) (result ++ [id]) rest
       end.

Definition spec_preferred (available mustInclude : list string) (desired : Z)
    : list string :=
  spec_walk (desired - Z.of_nat (length mustInclude)) mustInclude available.

(** ** Vocabulary for the health monitor

    A record that the tick has to heal: allocated and not Healthy. *)
Definition notHealthy (h : heap) (ptr : addr) : Prop :=
  from_option (λ d, Health d ≠ Healthy) False (h !! ptr).

#[global] Instance notHealthy_dec h ptr : Decision (notHealthy h ptr).
Proof. unfold notHealthy. destruct (h !! ptr); simpl; apply _. Defined.

(** The emissions a tick makes for the records it heals, in the order it
    heals them, against the receivers waiting at each attempt. *)
Fixpoint announce (ptrs : list addr) (receiver : list bool) : list emission :=
  match ptrs with
  | [] => []
  | ptr :: rest =>
      let '(e, receiver') := trySend ptr receiver in
      e :: announce rest receiver'
  end.

(** ** The monitor and a watch session running side by side

    [PPUDevicePlugin] has no lock field and neither [startHealthCheck] nor
    [ListAndWatch] takes one: the goroutine of the monitor and the goroutine
    serving a watch stream reach the same records with nothing ordering
    their accesses.  The configuration below holds the store, the entries the
    running tick has still to visit, the pointers [stream.Send] has still to
    serialise and the records it has serialised so far.  One visit of the
    tick and one record read of [Send] are each taken as an atomic action (a
    finer grain only adds interleavings), and since there is no guard every
    schedule of these actions is a possible run. *)
Record config := mkConfig {
  c_heap : list Device;
  c_monitor : list (string * nat);
  c_emitted : list emission;
  c_session : list nat;
  c_wire : list Device
}.

Inductive action :=
  | tickVisit (receiverWaiting : bool)
  | sendRead.

(** One iteration of the range in the tick body. *)
Definition monitor_step (receiverWaiting : bool) (c : config) : option config :=
  match c_monitor c with
  | [] => None
  | entry :: rest =>
      '(h', out) ← healthCheck_loop (c_heap c) [entry] [receiverWaiting] [];
      Some (mkConfig h' rest (c_emitted c ++ out) (c_session c) (c_wire c))
  end.

(** [Send] serialises the next record of the response. *)
Definition session_step (c : config) : option config :=
  match c_session c with
  | [] => None
  | ptr :: rest =>
      d ← c_heap c !! ptr;
      Some (mkConfig (c_heap c) (c_monitor c) (c_emitted c) rest (c_wire c ++ [d]))
  end.

Definition act (a : action) (c : config) : option config :=
  match a with
  | tickVisit receiverWaiting => monitor_step receiverWaiting c
  | sendRead => session_step c
  end.

Fixpoint run (schedule : list action) (c : config) : option config :=
  match schedule with
  | [] => Some c
  | a :: rest => c' ← act a c; run rest c'
  end.




(** ** The monitor goroutine

    What one pass through the [select] of [startHealthCheck] finds: the
    ticker fired (given with the order in which [range] will visit the
    registry and the receivers waiting during that tick body), or [p.stop]
    is closed. *)
Inductive monitor_case :=
  | tickerFired (order : list (string * nat)) (receiver : list bool)
  | stopClosed.

(** The [for { select { ... } }] loop of the goroutine.  The boolean tells
    whether the goroutine has returned; it is [false] while the loop is
    blocked in [select]. *)
Fixpoint startHealthCheck_loop (h : list Device) (p : PPUDevicePlugin)
    (evs : list monitor_case) (out : list emission)
    : option (list Device * list emission * bool) :=
  match evs with
  | [] => Some (h, out, false)
  | tickerFired order receiver :: rest =>
      '(h', o) ← healthCheck h p order receiver;
      startHealthCheck_loop h' p rest (out ++ o)
  | stopClosed :: _ => Some (h, out, true)
  end.

(** ** What a watch session is fed

    Every wake-up visits the registry in one of its visiting orders, and a
    received record lies in the store. *)
Definition valid_wakeup (h : list Device) (p : PPUDevicePlugin) (w : wakeup) : Prop :=
  range_order (devices p) (w_order w)
  ∧ match w_case w with
    | recvHealth device => (device < length h)%nat
    | recvStop => True
    end.

(** A wake-up that lets the session go on: a health update whose resend
    succeeds. *)
Definition goes_on (w : wakeup) : Prop :=
  (∃ device, w_case w = recvHealth device) ∧ w_sendErr w = None.

(** A wake-up carrying a record the registry itself points to. *)
Definition from_registry (p : PPUDevicePlugin) (w : wakeup) : Prop :=
  match w_case w with
  | recvHealth device => ∃ id, devices p !! id = Some device
  | recvStop => True
  end.

(** The snapshot of the registry a watch session builds in a given visiting
    order. *)
Definition snapshotOf (h : list Device) (order : list (string * nat)) : ListAndWatchResponse :=
  mkListAndWatchResponse (omap (λ ptr : nat, h !! ptr) order.*2).

(** ** Start-up

    [serve] and [register] talk to the operating system, to gRPC and to the
    kubelet.  Their calls are kept as a trace, and what each call answers is
    taken from [outside]; an error is the text [%v] prints for it. *)
Record RegisterRequest := mkRegisterRequest {
  Version : string;
  Endpoint : string;
  reg_ResourceName : string
}.

Inductive call :=
  | os_MkdirAll (path : string)
  | os_Remove (path : string)
  | net_Listen (path : string)
  | grpc_Serve (path : string)
  | grpc_Dial (path : string)
  | conn_Close (path : string)
  | kubelet_Register (request : RegisterRequest).

(** [answer_Remove] gives the error text together with what
    [os.IsNotExist] says of the error. *)
Record outside := mkOutside {
  answer_MkdirAll : string → option string;
  answer_Remove : string → option (string * bool);
  answer_Listen : string → option string;
  answer_Dial : string → option string;
  answer_Register : RegisterRequest → option string
}.

Definition PPUSocket : string := "ppu.sock".
Definition KubeletSocket : string := "kubelet.sock".
Definition v1beta1_Version : string := "v1beta1".

Section startup.

(** [filepath.Join] and [filepath.Dir] are those of the Go library. *)
Variable filepath_Join : string → string → string.
Variable filepath_Dir : string → string.
Variable world : outside.

(** The field [p.socket] set by [NewPPUDevicePlugin]. *)
Definition socket (p : PPUDevicePlugin) : string :=
  filepath_Join (socketPath p) PPUSocket.

(** [p.dial]: the connection is there exactly when the error is [nil]. *)
Definition dial (unixSocketPath : string) : list call * option string :=
  ([grpc_Dial unixSocketPath], answer_Dial world unixSocketPath).

Definition serve (p : PPUDevicePlugin) : list call * option string :=
  let dir := filepath_Dir (socket p) in
  match answer_MkdirAll world dir with
  | Some err => ([os_MkdirAll dir], Some ("failed to create socket directory: " +:+ err))
  | None =>
      match answer_Remove world (socket p) with
      | Some (err, false) =>
          ([os_MkdirAll dir; os_Remove (socket p)],
           Some ("failed to remove existing socket: " +:+ err))
      | _ =>
          match answer_Listen world (socket p) with
          | Some err =>
              ([os_MkdirAll dir; os_Remove (socket p); net_Listen (socket p)],
               Some ("failed to listen on socket " +:+ socket p +:+ ": " +:+ err))
          | None =>
              let '(dialled, err) := dial (socket p) in
              let calls := [os_MkdirAll dir; os_Remove (socket p); net_Listen (socket p);
                            grpc_Serve (socket p)] ++ dialled in
              match err with
              | Some err => (calls, Some ("failed to connect to server: " +:+ err))
              | None => (calls ++ [conn_Close (socket p)], None)
              end
          end
      end
  end.

Definition register (p : PPUDevicePlugin) : list call * option string :=
  let kubeletSocket := filepath_Join (socketPath p) KubeletSocket in
  let '(dialled, err) := dial kubeletSocket in
  match err with
  | Some err => (dialled, Some ("failed to connect to kubelet: " +:+ err))
  | None =>
      let request := mkRegisterRequest v1beta1_Version PPUSocket (resourceName p) in
      match answer_Register world request with
      | Some err =>
          (dialled ++ [kubelet_Register request; conn_Close kubeletSocket],
           Some ("failed to register device plugin: " +:+ err))
      | None => (dialled ++ [kubelet_Register request; conn_Close kubeletSocket], None)
      end
  end.

Definition Start (h : list Device) (p : PPUDevicePlugin)
    : list Device * PPUDevicePlugin * list call * option string :=
  let '(h', p', err) := initDevices h p in
  match err with
  | Some err => (h', p', [], Some ("failed to initialize devices: " +:+ err))
  | None =>
      let '(served, err) := serve p' in
      match err with
      | Some err => (h', p', served, Some ("failed to start gRPC server: " +:+ err))
      | None =>
          let '(registered, err) := register p' in
          match err with
          | Some err =>
              (h', p', served ++ registered,
               Some ("failed to register with kubelet: " +:+ err))
          | None => (h', p', served ++ registered, None)
          end
      end
  end.

(** The calls of a start-up in which nothing fails. *)
Definition all_calls (p : PPUDevicePlugin) : list call :=
  let kubeletSocket := filepath_Join (socketPath p) KubeletSocket in
  [os_MkdirAll (filepath_Dir (socket p)); os_Remove (socket p); net_Listen (socket p);
   grpc_Serve (socket p); grpc_Dial (socket p); conn_Close (socket p);
   grpc_Dial kubeletSocket;
   kubelet_Register (mkRegisterRequest v1beta1_Version PPUSocket (resourceName p));
   conn_Close kubeletSocket].

(** Every call of the start-up answers without an error; a stale socket that
    is not there counts as removed. *)
Definition all_answers_ok (p : PPUDevicePlugin) : Prop :=
  answer_MkdirAll world (filepath_Dir (socket p)) = None
  ∧ (answer_Remove world (socket p) = None
     ∨ ∃ err, answer_Remove world (socket p) = Some (err, true))
  ∧ answer_Listen world (socket p) = None
  ∧ answer_Dial world (socket p) = None
  ∧ answer_Dial world (filepath_Join (socketPath p) KubeletSocket) = None
  ∧ answer_Register world (mkRegisterRequest v1beta1_Version PPUSocket (resourceName p))
    = None.

End startup.

(** * Properties *)

(** ** Generic facts about the loops *)

Lemma foldl_snoc {A B} (f : B → A) (l : list B) (acc : list A) :
  foldl (λ xs y, xs ++ [f y]) acc l = acc ++ (f <$> l).
Proof.
  revert acc. induction l as [|y l IH]; intros acc; simpl.
  - by rewrite app_nil_r.
  - rewrite IH. by rewrite <- app_assoc.
Qed.

Lemma ppuID_inj (i j : Z) : ppuID i = ppuID j → i = j.
Proof.
  unfold ppuID, Sprintf_d. intros Heq%(inj (String.append "ppu-")).
  by apply (inj pretty).
Qed.

(** ** initDevices *)

Lemma initDevices_fold_heap (idxs : list Z) (h : heap) (p : PPUDevicePlugin) :
  (foldl initDevices_body (h, p) idxs).1 = h ++ ((λ i, mkDevice (ppuID i) Healthy) <$> idxs).
Proof.
  revert h p. induction idxs as [|i idxs IH]; intros h p; simpl.
  - by rewrite app_nil_r.
  - unfold initDevices_body at 2. simpl. rewrite IH.
    by rewrite <- app_assoc.
Qed.

Lemma initDevices_fold_dom (idxs : list Z) (h : heap) (p : PPUDevicePlugin) :
  dom (devices (foldl initDevices_body (h, p) idxs).2)
  = dom (devices p) ∪ list_to_set (ppuID <$> idxs).
Proof.
  revert h p. induction idxs as [|i idxs IH]; intros h p; simpl.
  - set_solver.
  - unfold initDevices_body at 2. simpl. rewrite IH. simpl.
    rewrite dom_insert_L. set_solver.
Qed.

Lemma initDevices_fold_other (idxs : list Z) (h : heap) (p : PPUDevicePlugin) (s : string) :
  s ∉ (ppuID <$> idxs) →
  devices (foldl initDevices_body (h, p) idxs).2 !! s = devices p !! s.
Proof.
  revert h p. induction idxs as [|i idxs IH]; intros h p Hs; simpl; [done|].
  unfold initDevices_body at 2. simpl.
  rewrite IH; [|set_solver]. simpl.
  apply lookup_insert_ne. set_solver.
Qed.

Lemma initDevices_fold_lookup (idxs : list Z) (h : heap) (p : PPUDevicePlugin)
    (k : nat) (i : Z) :
  NoDup idxs → idxs !! k = Some i →
  devices (foldl initDevices_body (h, p) idxs).2 !! ppuID i = Some (length h + k)%nat.
Proof.
  revert h p k. induction idxs as [|j idxs IH]; intros h p k Hnd Hk; [done|].
  apply NoDup_cons in Hnd as [Hj Hnd]. simpl.
  unfold initDevices_body at 2. simpl.
  destruct k as [|k]; simpl in Hk.
  - injection Hk as ->.
    rewrite initDevices_fold_other.
    + simpl. rewrite lookup_insert_eq. f_equal. lia.
    + intros (j & Heq & Hin)%list_elem_of_fmap.
      apply ppuID_inj in Heq. by subst.
  - rewrite (IH _ _ k Hnd Hk). rewrite length_app. simpl. f_equal. lia.
Qed.


Lemma initDevices_wf (h : heap) (p : PPUDevicePlugin) :
  devices p = ∅ → wf (initDevices h p).1.1 (initDevices h p).1.2.
Proof.
  intros Hempty. unfold wf, initDevices. simpl.
  intros id ptr Hid.
  assert (Hdom : id ∈ dom (devices (foldl initDevices_body (h, p) (seqZ 0 (deviceCount p))).2))
    by (apply elem_of_dom; eauto).
  rewrite initDevices_fold_dom, Hempty, dom_empty_L, elem_of_union in Hdom.
  destruct Hdom as [Hdom|Hdom]; [set_solver|].
  apply elem_of_list_to_set, list_elem_of_fmap in Hdom as (i & -> & Hi).
  apply list_elem_of_lookup in Hi as [k Hk].
  rewrite (initDevices_fold_lookup _ h p k i (NoDup_seqZ _ _) Hk) in Hid.
  injection Hid as <-.
  rewrite initDevices_fold_heap.
  rewrite lookup_app_r by lia.
  replace (length h + k - length h)%nat with k by lia.
  rewrite list_lookup_fmap, Hk. done.
Qed.

(** C6. For every configured count n >= 0, initialising the registry of a
    freshly built plugin succeeds (the returned error is nil) and leaves
    exactly n instances, whose ids are ppu-0 .. ppu-(n-1) and whose records
    are all Healthy; whatever the count, a failure could only come with a
    negative count, and the count 0 gives the empty registry. *)
Theorem initDevices_registry (rn sp : string) (n : Z) (h0 : heap) :
  0 ≤ n →
  let r := initDevices h0 (NewPPUDevicePlugin rn n sp) in
  r.2 = nil_error
  ∧ size (devices r.1.2) = Z.to_nat n
  ∧ (∀ id, is_Some (devices r.1.2 !! id) ↔ ∃ i, 0 ≤ i < n ∧ id = "ppu-" +:+ pretty i)
  ∧ (∀ id ptr, devices r.1.2 !! id = Some ptr →
       r.1.1 !! ptr = Some (mkDevice id Healthy))
  ∧ (∀ m, (initDevices h0 (NewPPUDevicePlugin rn m sp)).2 ≠ nil_error → m < 0)
  ∧ (n = 0 → devices r.1.2 = ∅).
Proof.
  intros Hn r.
  assert (Hdom : dom (devices r.1.2) = list_to_set (ppuID <$> seqZ 0 n)).
  { unfold r, initDevices. simpl. rewrite initDevices_fold_dom. simpl.
    rewrite dom_empty_L. set_solver. }
  assert (Hnd : NoDup (ppuID <$> seqZ 0 n)).
  { apply NoDup_fmap_2; [|apply NoDup_seqZ]. intros i j. apply ppuID_inj. }
  split; [done|]. split; [|split; [|split; [|split]]].
  - rewrite <- size_dom, Hdom, size_list_to_set by done.
    by rewrite length_fmap, length_seqZ.
  - intros id. rewrite <- elem_of_dom, Hdom, elem_of_list_to_set, list_elem_of_fmap.
    split.
    + intros (i & -> & Hi). apply elem_of_seqZ in Hi. exists i. split; [lia|done].
    + intros (i & Hi & ->). exists i. split; [done|]. apply elem_of_seqZ. lia.
  - intros id ptr Hid.
    assert (Hin : id ∈ dom (devices r.1.2)) by (apply elem_of_dom; eauto).
    rewrite Hdom, elem_of_list_to_set, list_elem_of_fmap in Hin.
    destruct Hin as (i & -> & Hi).
    apply list_elem_of_lookup in Hi as [k Hk].
    unfold r, initDevices in Hid |- *. simpl in Hid |- *.
    rewrite (initDevices_fold_lookup _ h0 _ k i (NoDup_seqZ _ _) Hk) in Hid.
    injection Hid as <-.
    rewrite initDevices_fold_heap, lookup_app_r by lia.
    replace (length h0 + k - length h0)%nat with k by lia.
    by rewrite list_lookup_fmap, Hk.
  - intros m Hm. by destruct Hm.
  - intros ->. apply dom_empty_iff_L. rewrite Hdom. done.
Qed.

Lemma initDevices_registry_witness :
  let r := initDevices [] (NewPPUDevicePlugin "alibabacloud.com/ppu" 3 "/tmp") in
  r.2 = nil_error
  ∧ size (devices r.1.2) = 3%nat
  ∧ devices r.1.2 !! "ppu-2" = Some 2%nat
  ∧ r.1.1 = [mkDevice "ppu-0" Healthy; mkDevice "ppu-1" Healthy; mkDevice "ppu-2" Healthy].
Proof.
  pose proof (initDevices_registry "alibabacloud.com/ppu" "/tmp" 3 [] ltac:(lia)) as H.
  cbv zeta in H. destruct H as (He & Hs & _).
  split; [exact He|]. split; [exact Hs|]. split; vm_compute; reflexivity.
Defined.

(** ** Allocate *)

Section allocate.

Context (h : heap) (p : PPUDevicePlugin).
Hypothesis Hwf : wf h p.

Lemma wf_deref (id : string) (ptr : addr) :
  devices p !! id = Some ptr → ∃ d, h !! ptr = Some d ∧ ID d = id.
Proof.
  intros Hid. specialize (Hwf id ptr Hid). simpl in Hwf.
  destruct (h !! ptr) as [d|]; [|done].
  injection Hwf as Hd. eauto.
Qed.

Lemma registeredHealthy_iff (id : string) :
  registeredHealthy h p id ↔
  ∃ ptr d, devices p !! id = Some ptr ∧ h !! ptr = Some d ∧ Health d = Healthy.
Proof.
  unfold registeredHealthy, healthOf. split.
  - destruct (devices p !! id) as [ptr|]; simpl; [|done].
    destruct (h !! ptr) as [d|] eqn:Hd; simpl; [|done].
    intros [= Hh]. eauto.
  - intros (ptr & d & -> & Hd & Hh). simpl. rewrite Hd. simpl. by rewrite Hh.
Qed.

Lemma allocatedDevices_loop_filter (ids acc : list string) :
  allocatedDevices_loop h p ids acc = Some (acc ++ filter (registeredHealthy h p) ids).
Proof.
  revert acc. induction ids as [|id ids IH]; intros acc; simpl.
  - by rewrite app_nil_r.
  - rewrite filter_cons.
    destruct (devices p !! id) as [ptr|] eqn:Hid.
    + destruct (wf_deref id ptr Hid) as (d & Hd & _). rewrite Hd. simpl.
      destruct (decide (Health d = Healthy)) as [Hh|Hh].
      * rewrite decide_True by (apply registeredHealthy_iff; eauto).
        rewrite IH. by rewrite <- app_assoc.
      * rewrite decide_False; [apply IH|].
        intros (ptr' & d' & Hid' & Hd' & Hh')%registeredHealthy_iff.
        congruence.
    + rewrite decide_False; [apply IH|].
      intros (ptr' & d' & Hid' & _)%registeredHealthy_iff. congruence.
Qed.

Lemma allocatedDevices_filter (containerRequest : ContainerAllocateRequest) :
  allocatedDevices h p containerRequest
  = Some (filter (registeredHealthy h p) (DevicesIDs containerRequest)).
Proof. unfold allocatedDevices. by rewrite allocatedDevices_loop_filter. Qed.

Lemma Allocate_loop_map (reqs : list ContainerAllocateRequest)
    (responses : list ContainerAllocateResponse) :
  Allocate_loop h p reqs responses
  = Some (responses ++
          ((λ cr, containerResponse (filter (registeredHealthy h p) (DevicesIDs cr)))
             <$> reqs)).
Proof.
  revert responses. induction reqs as [|cr reqs IH]; intros responses; simpl.
  - by rewrite app_nil_r.
  - rewrite allocatedDevices_filter. simpl. rewrite IH. by rewrite <- app_assoc.
Qed.

Lemma Allocate_map (request : AllocateRequest) :
  Allocate h p request
  = Some (mkAllocateResponse
            ((λ cr, containerResponse (filter (registeredHealthy h p) (DevicesIDs cr)))
               <$> alloc_ContainerRequests request),
          nil_error).
Proof. unfold Allocate. by rewrite Allocate_loop_map. Qed.

End allocate.

Lemma containerResponse_Devices (allocated : list string) :
  Devices (containerResponse allocated) = deviceSpec <$> allocated.
Proof. unfold containerResponse. simpl. by rewrite foldl_snoc. Qed.

Lemma deviceSpec_inj : Inj (=) (=) deviceSpec.
Proof.
  intros a b Heq. apply (f_equal ContainerPath) in Heq. simpl in Heq.
  by apply (inj (String.append "/dev/")) in Heq.
Qed.

Lemma occurrences_fmap_inj {A B} `{EqDecision A} `{EqDecision B}
    (f : A → B) (x : A) (l : list A) :
  Inj (=) (=) f → occurrences (f x) (f <$> l) = occurrences x l.
Proof.
  intros Hinj. unfold occurrences. induction l as [|y l IH]; [done|].
  rewrite fmap_cons, !filter_cons.
  destruct (decide (y = x)) as [->|Hne].
  - rewrite decide_True by done. simpl. by rewrite IH.
  - rewrite decide_False; [done|]. intros Heq. by apply Hinj in Heq.
Qed.

Lemma occurrences_filter {A} `{EqDecision A} (P : A → Prop) `{∀ x, Decision (P x)}
    (x : A) (l : list A) :
  P x → occurrences x (filter P l) = occurrences x l.
Proof.
  intros HP. unfold occurrences. induction l as [|y l IH]; [done|].
  rewrite !filter_cons. destruct (decide (y = x)) as [->|Hne].
  - rewrite decide_True by done. rewrite filter_cons, decide_True by done.
    simpl. by rewrite IH.
  - destruct (decide (P y)); [|done]. by rewrite filter_cons, decide_False.
Qed.

Lemma occurrences_le_length {A} `{EqDecision A} (x : A) (l : list A) :
  (occurrences x l ≤ length l)%nat.
Proof. unfold occurrences. apply length_filter. Qed.

(** C1. Allocate is a pure filter.  On a registry satisfying its invariant
    the call returns one response per container request; the ids allocated
    to a container are exactly the requested ids that the registry holds with
    health Healthy (the requested list filtered, so a subset of it, absent
    and unhealthy ids left out), and PPU_DEVICE_COUNT is the number of
    allocated ids in decimal. *)
Theorem Allocate_pure_filter (h : heap) (p : PPUDevicePlugin) (request : AllocateRequest) :
  wf h p →
  ∃ responses,
    Allocate h p request = Some (mkAllocateResponse responses, nil_error)
    ∧ length responses = length (alloc_ContainerRequests request)
    ∧ ∀ (i : nat) containerRequest,
        alloc_ContainerRequests request !! i = Some containerRequest →
        ∃ allocated,
          allocatedDevices h p containerRequest = Some allocated
          ∧ responses !! i = Some (containerResponse allocated)
          ∧ allocated = filter (registeredHealthy h p) (DevicesIDs containerRequest)
          ∧ (∀ id, id ∈ allocated ↔
                   id ∈ DevicesIDs containerRequest
                   ∧ ∃ ptr d, devices p !! id = Some ptr ∧ h !! ptr = Some d
                              ∧ Health d = Healthy)
          ∧ Envs (containerResponse allocated) !! "PPU_DEVICE_COUNT"
            = Some (pretty (Z.of_nat (length allocated))).
Proof.
  intros Hwf. eexists. split; [by apply Allocate_map|].
  split; [by rewrite length_fmap|].
  intros i cr Hi. exists (filter (registeredHealthy h p) (DevicesIDs cr)).
  split; [by apply allocatedDevices_filter|].
  split; [by rewrite list_lookup_fmap, Hi|].
  split; [done|]. split.
  - intros id. rewrite list_elem_of_filter, registeredHealthy_iff. tauto.
  - done.
Qed.

(** The registry of the specification's Allocate example: ppu-0 and ppu-1,
    both Healthy. *)
Lemma Allocate_pure_filter_witness :
  let h := [mkDevice "ppu-0" Healthy; mkDevice "ppu-1" Healthy] in
  let p := mkPPUDevicePlugin "alibabacloud.com/ppu" 2 "/tmp"
             (<["ppu-0" := 0%nat]> (<["ppu-1" := 1%nat]> ∅)) in
  let request := mkAllocateRequest
                   [mkContainerAllocateRequest ["ppu-0"; "ppu-1"; "ppu-9"]] in
  wf h p
  ∧ ∃ responses,
      Allocate h p request = Some (mkAllocateResponse responses, nil_error)
      ∧ length responses = 1%nat
      ∧ allocatedDevices h p (mkContainerAllocateRequest ["ppu-0"; "ppu-1"; "ppu-9"])
        = Some ["ppu-0"; "ppu-1"]
      ∧ Envs (containerResponse ["ppu-0"; "ppu-1"]) !! "PPU_DEVICE_COUNT" = Some "2".
Proof.
  intros h p request.
  assert (Hwf : wf h p).
  { apply (bool_decide_unpack _). vm_compute. exact I. }
  split; [exact Hwf|].
  destruct (Allocate_pure_filter h p request Hwf) as (responses & HA & Hlen & _).
  exists responses. split; [exact HA|]. split; [exact Hlen|].
  split; vm_compute; reflexivity.
Defined.

(** C8. Neither Allocate nor GetPreferredAllocation reports a call-level
    failure: on a registry satisfying its invariant Allocate returns a
    response with a nil error for every request, GetPreferredAllocation
    returns a nil error for every request, and a container all of whose
    requested ids are absent or unhealthy gets the empty allocation: no
    allocated id, no device binding, count "0". *)
Theorem soft_failures_are_not_errors (h : heap) (p : PPUDevicePlugin)
    (request : AllocateRequest) (prefRequest : PreferredAllocationRequest) :
  wf h p →
  (∃ response,
     Allocate h p request = Some (response, nil_error)
     ∧ ∀ (i : nat) containerRequest,
         alloc_ContainerRequests request !! i = Some containerRequest →
         Forall (λ id, ¬ registeredHealthy h p id) (DevicesIDs containerRequest) →
         allocatedDevices h p containerRequest = Some []
         ∧ alloc_ContainerResponses response !! i = Some (containerResponse []))
  ∧ (GetPreferredAllocation p prefRequest).2 = nil_error
  ∧ Envs (containerResponse []) !! "PPU_DEVICE_COUNT" = Some "0"
  ∧ Devices (containerResponse []) = [].
Proof.
  intros Hwf. split; [|done].
  eexists. split; [by apply Allocate_map|].
  intros i cr Hi Hall.
  assert (Hnil : filter (registeredHealthy h p) (DevicesIDs cr) = []).
  { induction Hall as [|id ids Hid _ IH]; [done|].
    by rewrite filter_cons, decide_False. }
  split.
  - by rewrite allocatedDevices_filter, Hnil.
  - simpl. by rewrite list_lookup_fmap, Hi, <- Hnil.
Qed.

Lemma soft_failures_are_not_errors_witness :
  let h := [mkDevice "ppu-0" Unhealthy; mkDevice "ppu-1" Healthy] in
  let p := mkPPUDevicePlugin "alibabacloud.com/ppu" 2 "/tmp"
             (<["ppu-0" := 0%nat]> (<["ppu-1" := 1%nat]> ∅)) in
  let request := mkAllocateRequest [mkContainerAllocateRequest ["ppu-0"; "ppu-7"]] in
  let prefRequest := mkPreferredAllocationRequest
                       [mkContainerPreferredAllocationRequest ["ppu-7"] ["ppu-0"] 2] in
  wf h p
  ∧ Allocate h p request = Some (mkAllocateResponse [containerResponse []], nil_error)
  ∧ (GetPreferredAllocation p prefRequest).2 = nil_error.
Proof.
  intros h p request prefRequest.
  assert (Hwf : wf h p).
  { apply (bool_decide_unpack _). vm_compute. exact I. }
  split; [exact Hwf|].
  destruct (soft_failures_are_not_errors h p request prefRequest Hwf)
    as ((response & HA & _) & HG & _).
  split; [|exact HG]. vm_compute. reflexivity.
Defined.

(** C10. Allocate does not deduplicate.  When an id that the registry holds
    with health Healthy occurs k > 1 times in a container request, it occurs
    k times in the allocated list; PPU_DEVICE_COUNT is the length of that
    list (all k occurrences counted), PPU_ALLOCATED_DEVICES is that list
    joined with commas, and the response carries k copies of the binding
    with container path /dev/<id> and host path /dev/null. *)
Theorem Allocate_keeps_duplicates (h : heap) (p : PPUDevicePlugin)
    (containerRequest : ContainerAllocateRequest) (id : string) (k : nat) :
  wf h p →
  registeredHealthy h p id →
  occurrences id (DevicesIDs containerRequest) = k →
  (1 < k)%nat →
  ∃ allocated,
    allocatedDevices h p containerRequest = Some allocated
    ∧ occurrences id allocated = k
    ∧ Envs (containerResponse allocated) !! "PPU_DEVICE_COUNT"
      = Some (pretty (Z.of_nat (length allocated)))
    ∧ (k ≤ length allocated)%nat
    ∧ Envs (containerResponse allocated) !! "PPU_ALLOCATED_DEVICES"
      = Some (Join allocated ",")
    ∧ occurrences (mkDeviceSpec ("/dev/" +:+ id) "/dev/null" "rw")
                  (Devices (containerResponse allocated)) = k
    ∧ length (Devices (containerResponse allocated)) = length allocated.
Proof.
  intros Hwf Hid Hk _.
  exists (filter (registeredHealthy h p) (DevicesIDs containerRequest)).
  assert (Hocc : occurrences id (filter (registeredHealthy h p) (DevicesIDs containerRequest)) = k)
    by (by rewrite occurrences_filter).
  split; [by apply allocatedDevices_filter|].
  split; [done|]. split; [done|].
  split; [rewrite <- Hocc; apply occurrences_le_length|].
  split; [done|].
  rewrite containerResponse_Devices. split.
  - change (mkDeviceSpec ("/dev/" +:+ id) "/dev/null" "rw") with (deviceSpec id).
    rewrite occurrences_fmap_inj; [done|apply deviceSpec_inj].
  - by rewrite length_fmap.
Qed.

Lemma Allocate_keeps_duplicates_witness :
  let h := [mkDevice "ppu-0" Healthy; mkDevice "ppu-1" Healthy] in
  let p := mkPPUDevicePlugin "alibabacloud.com/ppu" 2 "/tmp"
             (<["ppu-0" := 0%nat]> (<["ppu-1" := 1%nat]> ∅)) in
  let containerRequest := mkContainerAllocateRequest ["ppu-0"; "ppu-1"; "ppu-0"] in
  wf h p
  ∧ registeredHealthy h p "ppu-0"
  ∧ occurrences "ppu-0" (DevicesIDs containerRequest) = 2%nat
  ∧ allocatedDevices h p containerRequest = Some ["ppu-0"; "ppu-1"; "ppu-0"]
  ∧ Envs (containerResponse ["ppu-0"; "ppu-1"; "ppu-0"]) !! "PPU_DEVICE_COUNT" = Some "3"
  ∧ Envs (containerResponse ["ppu-0"; "ppu-1"; "ppu-0"]) !! "PPU_ALLOCATED_DEVICES"
    = Some "ppu-0,ppu-1,ppu-0"
  ∧ ∃ allocated,
      allocatedDevices h p containerRequest = Some allocated
      ∧ occurrences (mkDeviceSpec "/dev/ppu-0" "/dev/null" "rw")
                    (Devices (containerResponse allocated)) = 2%nat.
Proof.
  intros h p containerRequest.
  assert (Hwf : wf h p).
  { apply (bool_decide_unpack _). vm_compute. exact I. }
  assert (Hid : registeredHealthy h p "ppu-0").
  { apply (bool_decide_unpack _). vm_compute. exact I. }
  assert (Hocc : occurrences "ppu-0" (DevicesIDs containerRequest) = 2%nat).
  { vm_compute. reflexivity. }
  split; [exact Hwf|]. split; [exact Hid|]. split; [exact Hocc|].
  split; [vm_compute; reflexivity|].
  split; [vm_compute; reflexivity|].
  split; [vm_compute; reflexivity|].
  destruct (Allocate_keeps_duplicates h p containerRequest "ppu-0" 2 Hwf Hid Hocc ltac:(lia))
    as (allocated & Ha & _ & _ & _ & _ & Hspec & _).
  exists allocated. split; [exact Ha|exact Hspec].
Defined.

(** ** GetPreferredAllocation *)

Lemma seed_loop (mustInclude : list string) :
  foldl (λ sel deviceID, sel ++ [deviceID]) [] mustInclude = mustInclude.
Proof.
  rewrite (foldl_snoc (λ x : string, x)). simpl. apply list_fmap_id.
Qed.

Lemma alreadySelected_elem_of (selected : list string) (deviceID : string) :
  alreadySelected selected deviceID = bool_decide (deviceID ∈ selected).
Proof.
  induction selected as [|s selected IH]; cbn [alreadySelected].
  - rewrite bool_decide_eq_false_2; [done|]. by apply not_elem_of_nil.
  - destruct (decide (s = deviceID)) as [->|Hne].
    + rewrite bool_decide_eq_true_2; [done|]. by left.
    + rewrite IH. apply bool_decide_ext. rewrite elem_of_cons. naive_solver.
Qed.

Lemma selectAvailable_spec_walk (available selected : list string) (needed : Z) :
  selectAvailable available selected needed = spec_walk needed selected available.
Proof.
  revert selected needed.
  induction available as [|id available IH]; intros selected needed; simpl.
  - by destruct (bool_decide (needed ≤ 0)).
  - destruct (decide (needed ≤ 0)) as [Hle|Hgt].
    + by rewrite bool_decide_eq_true_2.
    + rewrite bool_decide_eq_false_2 by done.
      rewrite alreadySelected_elem_of.
      destruct (bool_decide (id ∈ selected)); apply IH.
Qed.

Lemma selectedDeviceIDs_unfold (cr : ContainerPreferredAllocationRequest) :
  selectedDeviceIDs cr
  = selectAvailable (AvailableDeviceIDs cr) (MustIncludeDeviceIDs cr)
      (AllocationSize cr - Z.of_nat (length (MustIncludeDeviceIDs cr))).
Proof. unfold selectedDeviceIDs. by rewrite seed_loop. Qed.

(** What the second pass adds to the ids already selected. *)
Lemma selectAvailable_extends (available selected : list string) (needed : Z) :
  ∃ extra,
    selectAvailable available selected needed = selected ++ extra
    ∧ NoDup extra
    ∧ (∀ id, id ∈ extra → (id ∉ selected) ∧ (id ∈ available))
    ∧ Z.of_nat (length extra) ≤ Z.max 0 needed.
Proof.
  revert selected needed.
  induction available as [|id available IH]; intros selected needed; simpl.
  - exists []. rewrite app_nil_r. split; [done|]. split; [constructor|].
    split; [intros x Hx; by apply elem_of_nil in Hx|simpl; lia].
  - destruct (decide (needed ≤ 0)) as [Hle|Hgt].
    { exists []. rewrite app_nil_r. split; [done|]. split; [constructor|].
      split; [intros x Hx; by apply elem_of_nil in Hx|simpl; lia]. }
    rewrite alreadySelected_elem_of.
    destruct (bool_decide (id ∈ selected)) eqn:Hin.
    + destruct (IH selected needed) as (extra & Heq & Hnd & Hsub & Hlen).
      exists extra. split; [done|]. split; [done|]. split; [|done].
      intros x Hx. destruct (Hsub x Hx). split; [done|]. by right.
    + apply bool_decide_eq_false in Hin.
      destruct (IH (selected ++ [id]) (needed - 1)) as (extra & Heq & Hnd & Hsub & Hlen).
      exists (id :: extra). rewrite Heq, <- app_assoc. split; [done|].
      split; [|split].
      * apply NoDup_cons. split; [|done].
        intros Hx. destruct (Hsub id Hx) as [Hn _]. apply Hn.
        apply elem_of_app. right. by left.
      * intros x [->|Hx]%elem_of_cons.
        { split; [done|]. by left. }
        destruct (Hsub x Hx) as [Hn Ha]. split; [|by right].
        intros Hs. apply Hn. apply elem_of_app. by left.
      * simpl length. lia.
Qed.

Lemma occurrences_app {A} `{EqDecision A} (x : A) (l1 l2 : list A) :
  occurrences x (l1 ++ l2) = (occurrences x l1 + occurrences x l2)%nat.
Proof. unfold occurrences. by rewrite filter_app, length_app. Qed.

Lemma occurrences_not_elem_of {A} `{EqDecision A} (x : A) (l : list A) :
  x ∉ l → occurrences x l = 0%nat.
Proof.
  unfold occurrences. induction l as [|y l IH]; [done|].
  intros [Hne Hnin]%not_elem_of_cons.
  rewrite filter_cons, decide_False by done. by apply IH.
Qed.

Lemma occurrences_NoDup {A} `{EqDecision A} (x : A) (l : list A) :
  NoDup l → x ∈ l → occurrences x l = 1%nat.
Proof.
  unfold occurrences. induction 1 as [|y l Hy Hnd IH]; [intros Hx; by apply elem_of_nil in Hx|].
  rewrite filter_cons. intros [->|Hx]%elem_of_cons.
  - rewrite decide_True by done. simpl. f_equal.
    by apply (occurrences_not_elem_of y l).
  - rewrite decide_False; [by apply IH|]. intros ->. done.
Qed.

Lemma GetPreferredAllocation_map (p : PPUDevicePlugin) (request : PreferredAllocationRequest) :
  (GetPreferredAllocation p request).1
  = mkPreferredAllocationResponse
      ((λ cr, mkContainerPreferredAllocationResponse (selectedDeviceIDs cr))
         <$> pref_ContainerRequests request).
Proof.
  unfold GetPreferredAllocation. simpl. f_equal.
  by rewrite (foldl_snoc
    (λ cr, mkContainerPreferredAllocationResponse (selectedDeviceIDs cr))).
Qed.

(** C2, as the specification states it, fails: with must-include ids [a; a]
    and a desired count of 1 the preferred list is [a; a], which is longer
    than the desired count and holds a twice. *)
Lemma preferred_list_exceeds_and_repeats :
  let p := NewPPUDevicePlugin "alibabacloud.com/ppu" 0 "/tmp" in
  let containerRequest := mkContainerPreferredAllocationRequest [] ["a"; "a"] 1 in
  let request := mkPreferredAllocationRequest [containerRequest] in
  (GetPreferredAllocation p request).1
  = mkPreferredAllocationResponse [mkContainerPreferredAllocationResponse ["a"; "a"]]
  ∧ ¬ (Z.of_nat (length (selectedDeviceIDs containerRequest))
       ≤ AllocationSize containerRequest
       ∧ ∀ id, id ∈ MustIncludeDeviceIDs containerRequest →
               occurrences id (selectedDeviceIDs containerRequest) = 1%nat).
Proof.
  split; [vm_compute; reflexivity|].
  intros [Hlen _]. vm_compute in Hlen. by apply Hlen.
Qed.

(** C2, amended.  For every input the preferred list of a container is the
    must-include list as given (repeated ids kept) followed by pairwise
    distinct available ids that are not must-include ids; it has at most
    max(desired_count, number of must-include ids) ids; every must-include id
    occurs in it exactly as often as in the must-include list (once when
    that list has no repetition); and every id in it comes from the
    must-include or the available list. *)
Theorem preferred_list_bounds (p : PPUDevicePlugin) (request : PreferredAllocationRequest)
    (i : nat) (containerRequest : ContainerPreferredAllocationRequest) :
  let mustInclude := MustIncludeDeviceIDs containerRequest in
  let available := AvailableDeviceIDs containerRequest in
  let desired := AllocationSize containerRequest in
  pref_ContainerRequests request !! i = Some containerRequest →
  ∃ preferred extra,
    pref_ContainerResponses (GetPreferredAllocation p request).1 !! i
    = Some (mkContainerPreferredAllocationResponse preferred)
    ∧ preferred = mustInclude ++ extra
    ∧ NoDup extra
    ∧ (∀ id, id ∈ extra → (id ∉ mustInclude) ∧ (id ∈ available))
    ∧ Z.of_nat (length preferred) ≤ Z.max desired (Z.of_nat (length mustInclude))
    ∧ (∀ id, id ∈ mustInclude → occurrences id preferred = occurrences id mustInclude)
    ∧ (NoDup mustInclude → ∀ id, id ∈ mustInclude → occurrences id preferred = 1%nat)
    ∧ (∀ id, id ∈ preferred → id ∈ mustInclude ∨ id ∈ available).
Proof.
  intros mustInclude available desired Hi.
  destruct (selectAvailable_extends available mustInclude
              (desired - Z.of_nat (length mustInclude)))
    as (extra & Heq & Hnd & Hsub & Hlen).
  exists (selectedDeviceIDs containerRequest), extra.
  rewrite GetPreferredAllocation_map. simpl.
  rewrite list_lookup_fmap, Hi. simpl.
  rewrite selectedDeviceIDs_unfold. fold mustInclude available desired.
  rewrite Heq.
  split; [done|]. split; [done|]. split; [done|]. split; [done|].
  assert (Hocc : ∀ id, id ∈ mustInclude →
            occurrences id (mustInclude ++ extra) = occurrences id mustInclude).
  { intros id Hid. rewrite occurrences_app.
    rewrite (occurrences_not_elem_of id extra); [lia|].
    intros Hx. by destruct (Hsub id Hx). }
  split; [|split; [done|split]].
  - rewrite length_app. lia.
  - intros Hnd' id Hid. rewrite (Hocc id Hid). by apply occurrences_NoDup.
  - intros id [Hm|Hx]%elem_of_app; [by left|]. right. by destruct (Hsub id Hx).
Qed.

Lemma preferred_list_bounds_witness :
  let p := NewPPUDevicePlugin "alibabacloud.com/ppu" 0 "/tmp" in
  let containerRequest :=
    mkContainerPreferredAllocationRequest ["b"; "a"; "b"; "c"] ["a"; "a"] 3 in
  let request := mkPreferredAllocationRequest [containerRequest] in
  pref_ContainerRequests request !! 0%nat = Some containerRequest
  ∧ ∃ preferred extra,
      pref_ContainerResponses (GetPreferredAllocation p request).1 !! 0%nat
      = Some (mkContainerPreferredAllocationResponse preferred)
      ∧ preferred = ["a"; "a"] ++ extra
      ∧ Z.of_nat (length preferred) ≤ 3.
Proof.
  intros p containerRequest request.
  assert (Hi : pref_ContainerRequests request !! 0%nat = Some containerRequest)
    by reflexivity.
  split; [exact Hi|].
  destruct (preferred_list_bounds p request 0 containerRequest Hi)
    as (preferred & extra & Hresp & Heq & _ & _ & Hlen & _).
  exists preferred, extra. split; [exact Hresp|]. split; [exact Heq|].
  simpl in Hlen. lia.
Defined.

(** C4. GetPreferredAllocation computes each container's preferred list by
    the algorithm of the specification: the must-include ids seed the result
    in the order given, remaining is desired_count - len(result), and the
    available ids are walked in order, each one not yet in the result being
    appended and remaining decremented, until remaining <= 0.  For
    available = [a,b,c,d], must-include = [a], desired = 2 the result is
    [a,b]. *)
Theorem GetPreferredAllocation_algorithm (p : PPUDevicePlugin)
    (request : PreferredAllocationRequest) :
  (GetPreferredAllocation p request).1
  = mkPreferredAllocationResponse
      ((λ cr, mkContainerPreferredAllocationResponse
                (spec_preferred (AvailableDeviceIDs cr) (MustIncludeDeviceIDs cr)
                                (AllocationSize cr)))
         <$> pref_ContainerRequests request)
  ∧ (GetPreferredAllocation p
       (mkPreferredAllocationRequest
          [mkContainerPreferredAllocationRequest ["a"; "b"; "c"; "d"] ["a"] 2])).1
    = mkPreferredAllocationResponse [mkContainerPreferredAllocationResponse ["a"; "b"]].
Proof.
  split; [|vm_compute; reflexivity].
  rewrite GetPreferredAllocation_map. f_equal.
  apply list_fmap_ext. intros _ cr _. f_equal.
  rewrite selectedDeviceIDs_unfold. apply selectAvailable_spec_walk.
Qed.

(** ** The health monitor's tick *)

Lemma range_order_elem_of (m : gmap string addr) (order : list (string * addr))
    (k : string) (a : addr) :
  range_order m order → (k, a) ∈ order ↔ m !! k = Some a.
Proof. unfold range_order. intros ->. apply elem_of_map_to_list. Qed.

Lemma range_order_list_to_map (order : list (string * addr)) :
  NoDup order.*1 → range_order (list_to_map order) order.
Proof. intros Hnd. unfold range_order. symmetry. by apply map_to_list_to_map. Qed.

Lemma range_order_NoDup (m : gmap string addr) (order : list (string * addr)) :
  range_order m order → NoDup order.
Proof. unfold range_order. intros ->. apply NoDup_map_to_list. Qed.

Lemma range_order_pointers (h : heap) (p : PPUDevicePlugin)
    (order : list (string * addr)) :
  wf h p → range_order (devices p) order →
  NoDup order.*2 ∧ ∀ a, a ∈ order.*2 → is_Some (h !! a).
Proof.
  intros Hwf Hord. split.
  - apply NoDup_fmap_2_strong; [|by eapply range_order_NoDup].
    intros [k1 a1] [k2 a2] H1 H2 Heq. simpl in Heq. subst a2.
    apply (range_order_elem_of _ _ _ _ Hord) in H1, H2.
    destruct (wf_deref h p Hwf k1 a1 H1) as (d1 & Hd1 & <-).
    destruct (wf_deref h p Hwf k2 a1 H2) as (d2 & Hd2 & <-).
    congruence.
  - intros a ([k a'] & -> & Hin)%list_elem_of_fmap. simpl.
    apply (range_order_elem_of _ _ _ _ Hord) in Hin.
    destruct (wf_deref h p Hwf k a' Hin) as (d & Hd & _). eauto.
Qed.

Lemma notHealthy_insert_ne (h : heap) (a : addr) (d : Device) (l : list addr) :
  a ∉ l → filter (notHealthy (<[a := d]> h)) l = filter (notHealthy h) l.
Proof.
  induction l as [|b l IH]; [done|].
  intros [Hne Hnin]%not_elem_of_cons.
  rewrite !filter_cons. rewrite IH by done.
  assert (Hiff : notHealthy (<[a := d]> h) b ↔ notHealthy h b).
  { unfold notHealthy. by rewrite list_lookup_insert_ne by done. }
  repeat case_decide; tauto.
Qed.

Lemma healthCheck_loop_spec (order : list (string * addr)) :
  ∀ (h : heap) (receiver : list bool) (out : list emission),
    (∀ a, a ∈ order.*2 → is_Some (h !! a)) →
    NoDup order.*2 →
    ∃ h',
      healthCheck_loop h order receiver out
      = Some (h', out ++ announce (filter (notHealthy h) order.*2) receiver)
      ∧ length h' = length h
      ∧ ∀ a d, h !! a = Some d →
               h' !! a = Some (if decide (a ∈ order.*2)
                               then mkDevice (ID d) Healthy else d).
Proof.
  induction order as [|[k a] order IH]; intros h receiver out Halloc Hnd.
  - exists h. simpl. rewrite app_nil_r. split; [done|]. split; [done|].
    by intros a d Ha.
  - rewrite fmap_cons in Hnd. simpl in Hnd.
    apply NoDup_cons in Hnd as [Ha Hnd].
    destruct (Halloc a) as [d Hd]; [rewrite fmap_cons; by left|].
    cbn [healthCheck_loop]. rewrite Hd. simpl.
    assert (Hnh : notHealthy h a ↔ Health d ≠ Healthy).
    { unfold notHealthy. by rewrite Hd. }
    rewrite filter_cons.
    destruct (decide (Health d ≠ Healthy)) as [Hbad|Hok].
    + rewrite (decide_True (P := notHealthy h a)) by tauto.
      unfold setHealth. rewrite Hd. simpl.
      destruct (trySend a receiver) as [e receiver'] eqn:Hsend.
      destruct (IH (<[a := mkDevice (ID d) Healthy]> h) receiver' (out ++ [e]))
        as (h' & Hrun & Hlen & Hpt); [|done|].
      { intros b Hb. rewrite fmap_cons in Halloc.
        destruct (Halloc b) as [db Hdb]; [by right|].
        destruct (decide (b = a)) as [->|Hne].
        - rewrite list_lookup_insert_eq; [eauto|]. by eapply lookup_lt_Some.
        - rewrite list_lookup_insert_ne by done. eauto. }
      exists h'. rewrite Hrun, notHealthy_insert_ne by done.
      cbn [announce]. try rewrite Hsend. rewrite <- app_assoc. split; [done|].
      split; [by rewrite Hlen, length_insert|].
      intros b db Hb. destruct (decide (b = a)) as [->|Hne].
      * rewrite decide_True by (by left).
        assert (db = d) as -> by congruence.
        rewrite (Hpt a (mkDevice (ID d) Healthy)).
        { by case_decide. }
        rewrite list_lookup_insert_eq; [done|]. by eapply lookup_lt_Some.
      * rewrite (Hpt b db) by (by rewrite list_lookup_insert_ne).
        destruct (decide (b ∈ order.*2)) as [Hin|Hnin].
        { rewrite decide_True; [done|]. by right. }
        rewrite decide_False; [done|].
        intros [?|?]%elem_of_cons; done.
    + rewrite (decide_False (P := notHealthy h a)) by tauto.
      destruct (IH h receiver out) as (h' & Hrun & Hlen & Hpt); [|done|].
      { intros b Hb. apply Halloc. rewrite fmap_cons. by right. }
      exists h'. rewrite Hrun. split; [done|]. split; [done|].
      intros b db Hb. rewrite (Hpt b db Hb).
      destruct (decide (b = a)) as [->|Hne].
      * rewrite decide_False by done. rewrite decide_True by (by left).
        assert (db = d) as -> by congruence.
        apply dec_stable in Hok. destruct d as [i hl]. simpl in *. by subst.
      * destruct (decide (b ∈ order.*2)) as [Hin|Hnin].
        { rewrite decide_True; [done|]. by right. }
        rewrite decide_False; [done|].
        intros [?|?]%elem_of_cons; done.
Qed.

Lemma announce_emitted (ptrs : list addr) (receiver : list bool) :
  emitted <$> announce ptrs receiver = ptrs.
Proof.
  revert receiver. induction ptrs as [|ptr ptrs IH]; intros receiver; [done|].
  cbn [announce]. destruct (trySend ptr receiver) as [e receiver'] eqn:Hsend.
  rewrite fmap_cons, IH. f_equal.
  unfold trySend in Hsend. destruct receiver as [|[] ?]; by injection Hsend as <- _.
Qed.

Lemma announce_no_receiver (ptrs : list addr) (receiver : list bool) :
  Forall (λ b, b = false) receiver →
  announce ptrs receiver = skipped_update <$> ptrs.
Proof.
  revert receiver. induction ptrs as [|ptr ptrs IH]; intros receiver Hno; [done|].
  cbn [announce]. destruct Hno as [|b receiver -> Hno]; simpl.
  - f_equal. by apply IH.
  - f_equal. by apply IH.
Qed.

(** Every record a tick emits is one the registry points to. *)
Lemma healthCheck_emits_registered (h0 h : heap) (p : PPUDevicePlugin)
    (order : list (string * addr)) (receiver : list bool) (out : list emission)
    (device : addr) :
  wf h0 p → range_order (devices p) order →
  healthCheck h0 p order receiver = Some (h, out) →
  device ∈ emitted <$> out →
  ∃ id, devices p !! id = Some device.
Proof.
  intros Hwf Hord Hrun Hin.
  destruct (range_order_pointers h0 p order Hwf Hord) as [Hnd Halloc].
  destruct (healthCheck_loop_spec order h0 receiver [] Halloc Hnd)
    as (h1 & Hrun1 & _).
  unfold healthCheck in Hrun. rewrite Hrun in Hrun1. simpl in Hrun1.
  injection Hrun1 as _ Hout. subst out.
  rewrite announce_emitted in Hin.
  apply list_elem_of_filter in Hin as [_ ([k a] & -> & Hin)%list_elem_of_fmap].
  exists k. by apply (range_order_elem_of _ _ _ _ Hord).
Qed.

(** C5. One run of the tick body over a registry satisfying its invariant,
    whatever order the map is visited in and whatever receivers are waiting,
    terminates; afterwards every registry entry is Healthy with its id
    unchanged (so every entry that was not Healthy has been transitioned),
    no other record has changed, and exactly one emission was attempted for
    each entry that was not Healthy.  Each attempt either hands the record
    to a waiting receiver or is skipped; with no receiver waiting every
    emission is skipped, and the resulting registry is the same as with any
    other receivers. *)
Theorem healthCheck_heals_all (h : heap) (p : PPUDevicePlugin)
    (order : list (string * addr)) (receiver : list bool) :
  wf h p →
  range_order (devices p) order →
  ∃ h' out,
    healthCheck h p order receiver = Some (h', out)
    ∧ wf h' p
    ∧ (∀ id ptr, devices p !! id = Some ptr → h' !! ptr = Some (mkDevice id Healthy))
    ∧ (∀ ptr, (∀ id, devices p !! id ≠ Some ptr) → h' !! ptr = h !! ptr)
    ∧ NoDup (emitted <$> out)
    ∧ (∀ ptr, ptr ∈ emitted <$> out ↔
              ∃ id d, devices p !! id = Some ptr ∧ h !! ptr = Some d
                      ∧ Health d ≠ Healthy)
    ∧ out = announce (emitted <$> out) receiver
    ∧ (Forall (λ b, b = false) receiver → out = skipped_update <$> (emitted <$> out))
    ∧ (∀ receiver', ∃ out', healthCheck h p order receiver' = Some (h', out')).
Proof.
  intros Hwf Hord.
  destruct (range_order_pointers h p order Hwf Hord) as [Hnd Halloc].
  destruct (healthCheck_loop_spec order h receiver [] Halloc Hnd)
    as (h' & Hrun & Hlen & Hpt).
  simpl in Hrun.
  exists h', (announce (filter (notHealthy h) order.*2) receiver).
  assert (Hreg : ∀ id ptr, devices p !! id = Some ptr →
                           h' !! ptr = Some (mkDevice id Healthy)).
  { intros id ptr Hid.
    destruct (wf_deref h p Hwf id ptr Hid) as (d & Hd & <-).
    rewrite (Hpt ptr d Hd). rewrite decide_True; [done|].
    apply list_elem_of_fmap. exists (ID d, ptr). split; [done|].
    by apply (range_order_elem_of _ _ _ _ Hord). }
  split; [done|]. split; [|split; [done|split; [|split; [|split; [|split; [|split]]]]]].
  - intros id ptr Hid. by rewrite (Hreg id ptr Hid).
  - intros ptr Hout. destruct (h !! ptr) as [d|] eqn:Hd.
    + rewrite (Hpt ptr d Hd). rewrite decide_False; [done|].
      intros ([k a] & -> & Hin)%list_elem_of_fmap.
      apply (range_order_elem_of _ _ _ _ Hord) in Hin. by apply (Hout k).
    + apply lookup_ge_None. apply lookup_ge_None in Hd. lia.
  - rewrite announce_emitted. by apply NoDup_filter.
  - intros ptr. rewrite announce_emitted, list_elem_of_filter. split.
    + intros [Hbad ([k a] & -> & Hin)%list_elem_of_fmap]. simpl in *.
      apply (range_order_elem_of _ _ _ _ Hord) in Hin.
      destruct (wf_deref h p Hwf k a Hin) as (d & Hd & _).
      exists k, d. unfold notHealthy in Hbad. rewrite Hd in Hbad. done.
    + intros (id & d & Hid & Hd & Hbad). split.
      * unfold notHealthy. by rewrite Hd.
      * apply list_elem_of_fmap. exists (id, ptr). split; [done|].
        by apply (range_order_elem_of _ _ _ _ Hord).
  - by rewrite announce_emitted.
  - intros Hno. rewrite announce_emitted. by apply announce_no_receiver.
  - intros receiver'.
    destruct (healthCheck_loop_spec order h receiver' [] Halloc Hnd)
      as (h'' & Hrun' & Hlen' & Hpt').
    assert (h'' = h') as ->.
    { apply list_eq. intros a. destruct (h !! a) as [d|] eqn:Hd.
      - by rewrite (Hpt a d Hd), (Hpt' a d Hd).
      - apply lookup_ge_None in Hd.
        rewrite (proj2 (lookup_ge_None h' a)), (proj2 (lookup_ge_None h'' a)); [done|lia..]. }
    eauto.
Qed.

Lemma healthCheck_heals_all_witness :
  let h := [mkDevice "ppu-0" Unhealthy; mkDevice "ppu-1" Healthy;
            mkDevice "ppu-2" Unhealthy] in
  let p := mkPPUDevicePlugin "alibabacloud.com/ppu" 3 "/tmp"
             (<["ppu-0" := 0%nat]> (<["ppu-1" := 1%nat]> (<["ppu-2" := 2%nat]> ∅))) in
  let order := [("ppu-2", 2%nat); ("ppu-0", 0%nat); ("ppu-1", 1%nat)] in
  wf h p
  ∧ range_order (devices p) order
  ∧ healthCheck h p order [false; true]
    = Some ([mkDevice "ppu-0" Healthy; mkDevice "ppu-1" Healthy;
             mkDevice "ppu-2" Healthy],
            [skipped_update 2%nat; sent_update 0%nat])
  ∧ ∃ h' out, healthCheck h p order [false; true] = Some (h', out)
              ∧ NoDup (emitted <$> out).
Proof.
  intros h p order.
  assert (Hwf : wf h p).
  { apply (bool_decide_unpack _). vm_compute. exact I. }
  assert (Hord : range_order (devices p) order).
  { replace (devices p) with (list_to_map order : gmap string nat)
      by (vm_compute; reflexivity).
    apply range_order_list_to_map.
    apply (bool_decide_unpack _). vm_compute. exact I. }
  split; [exact Hwf|]. split; [exact Hord|].
  split; [vm_compute; reflexivity|].
  destruct (healthCheck_heals_all h p order [false; true] Hwf Hord)
    as (h' & out & Hrun & _ & _ & _ & Hnd & _).
  exists h', out. split; [exact Hrun|exact Hnd].
Defined.

(** ** The watch session *)

Lemma deviceList_pointers (order : list (string * addr)) :
  deviceList order = order.*2.
Proof. unfold deviceList. by rewrite (foldl_snoc snd). Qed.

Lemma mapM_omap {A B} (f : A → option B) (l : list A) :
  (∀ x, x ∈ l → is_Some (f x)) → mapM f l = Some (omap f l).
Proof.
  induction l as [|x l IH]; intros Hall; [done|].
  destruct (Hall x) as [y Hy]; [by left|].
  cbn [mapM omap list_omap]. rewrite Hy. simpl.
  rewrite IH; [done|]. intros z Hz. apply Hall. by right.
Qed.

Lemma omap_perm {A B} (f : A → option B) (l1 l2 : list A) :
  l1 ≡ₚ l2 → omap f l1 ≡ₚ omap f l2.
Proof.
  induction 1 as [|x l1 l2 _ IH|x y l|l1 l2 l3 _ IH1 _ IH2]; simpl.
  - done.
  - destruct (f x); [by constructor|done].
  - destruct (f x), (f y); try done. apply perm_swap.
  - by etrans.
Qed.

Lemma marshal_deviceList (h : heap) (p : PPUDevicePlugin) (order : list (string * addr)) :
  wf h p → range_order (devices p) order →
  marshal h (deviceList order)
  = Some (mkListAndWatchResponse (omap (λ ptr : addr, h !! ptr) order.*2)).
Proof.
  intros Hwf Hord. unfold marshal. rewrite deviceList_pointers.
  rewrite mapM_omap; [done|].
  by apply (range_order_pointers h p order Hwf Hord).
Qed.

Lemma marshalled_ids (h : heap) (p : PPUDevicePlugin) (order : list (string * addr)) :
  wf h p →
  (∀ k a, (k, a) ∈ order → devices p !! k = Some a) →
  ID <$> omap (λ ptr : addr, h !! ptr) order.*2 = order.*1.
Proof.
  intros Hwf. induction order as [|[k a] order IH]; intros Hin; [done|].
  destruct (wf_deref h p Hwf k a) as (d & Hd & <-); [apply Hin; by left|].
  rewrite !fmap_cons. cbn [omap list_omap]. simpl. rewrite Hd.
  rewrite fmap_cons, IH; [done|]. intros k' a' Hin'. apply Hin. by right.
Qed.

(** C7, as the specification states it, fails: the registry {ppu-0, ppu-1}
    can be visited in either order, and the two snapshots sent first by two
    watch sessions over the same store then differ. *)
Lemma snapshots_differ_in_order :
  let h := [mkDevice "ppu-0" Healthy; mkDevice "ppu-1" Healthy] in
  let p := mkPPUDevicePlugin "alibabacloud.com/ppu" 2 "/tmp"
             (<["ppu-0" := 0%nat]> (<["ppu-1" := 1%nat]> ∅)) in
  let order1 := [("ppu-0", 0%nat); ("ppu-1", 1%nat)] in
  let order2 := [("ppu-1", 1%nat); ("ppu-0", 0%nat)] in
  range_order (devices p) order1
  ∧ range_order (devices p) order2
  ∧ ListAndWatch h p order1 None []
    = Some (h, [mkListAndWatchResponse
                  [mkDevice "ppu-0" Healthy; mkDevice "ppu-1" Healthy]], blocked)
  ∧ ListAndWatch h p order2 None []
    = Some (h, [mkListAndWatchResponse
                  [mkDevice "ppu-1" Healthy; mkDevice "ppu-0" Healthy]], blocked)
  ∧ marshal h (deviceList order1) ≠ marshal h (deviceList order2).
Proof.
  intros h p order1 order2.
  split; [|split].
  - replace (devices p) with (list_to_map order1 : gmap string nat)
      by (vm_compute; reflexivity).
    apply range_order_list_to_map. apply (bool_decide_unpack _). vm_compute. exact I.
  - replace (devices p) with (list_to_map order2 : gmap string nat)
      by (vm_compute; reflexivity).
    apply range_order_list_to_map. apply (bool_decide_unpack _). vm_compute. exact I.
  - split; [vm_compute; reflexivity|]. split; [vm_compute; reflexivity|].
    vm_compute. intros Heq. discriminate Heq.
Qed.

(** C7, amended.  Two snapshots built from the same registry state, with no
    health change in between, both succeed and hold the same instances with
    the same health: each lists every registry entry exactly once, so the
    two lists are permutations of each other and as long as the registry;
    they are identical when the map is visited in the same order, which Go
    does not promise. *)
Theorem snapshots_are_permutations (h : heap) (p : PPUDevicePlugin)
    (order1 order2 : list (string * addr)) :
  wf h p →
  range_order (devices p) order1 →
  range_order (devices p) order2 →
  ∃ ds1 ds2,
    marshal h (deviceList order1) = Some (mkListAndWatchResponse ds1)
    ∧ marshal h (deviceList order2) = Some (mkListAndWatchResponse ds2)
    ∧ ds1 ≡ₚ ds2
    ∧ length ds1 = size (devices p)
    ∧ NoDup ds1
    ∧ (∀ d, d ∈ ds1 ↔ ∃ ptr, devices p !! ID d = Some ptr ∧ h !! ptr = Some d)
    ∧ (order1 = order2 → ds1 = ds2).
Proof.
  intros Hwf Hord1 Hord2.
  exists (omap (λ ptr : addr, h !! ptr) order1.*2),
         (omap (λ ptr : addr, h !! ptr) order2.*2).
  split; [by apply (marshal_deviceList h p)|].
  split; [by apply (marshal_deviceList h p)|].
  assert (Hds : ∀ d, d ∈ omap (λ ptr : addr, h !! ptr) order1.*2 ↔
                     ∃ ptr, devices p !! ID d = Some ptr ∧ h !! ptr = Some d).
  { intros d. rewrite list_elem_of_omap. split.
    - intros (ptr & ([k a] & -> & Hin)%list_elem_of_fmap & Hd). simpl in Hd.
      apply (range_order_elem_of _ _ _ _ Hord1) in Hin.
      destruct (wf_deref h p Hwf k a Hin) as (d' & Hd' & <-).
      exists a. split; congruence.
    - intros (ptr & Hid & Hd). exists ptr. split; [|done].
      apply list_elem_of_fmap. exists (ID d, ptr). split; [done|].
      by apply (range_order_elem_of _ _ _ _ Hord1). }
  split; [|split; [|split; [|split; [done|by intros ->]]]].
  - apply omap_perm, fmap_Permutation.
    unfold range_order in Hord1, Hord2. by rewrite Hord1, Hord2.
  - destruct (range_order_pointers h p order1 Hwf Hord1) as [_ Halloc].
    pose proof (mapM_omap (λ ptr : addr, h !! ptr) order1.*2 Halloc) as HM.
    apply length_mapM in HM. rewrite <- HM, length_fmap.
    unfold range_order in Hord1. by rewrite Hord1, length_map_to_list.
  - apply (NoDup_fmap_1 ID).
    rewrite (marshalled_ids h p order1 Hwf); [|by intros k a ?%(range_order_elem_of _ _ _ _ Hord1)].
    unfold range_order in Hord1. rewrite Hord1. apply NoDup_fst_map_to_list.
Qed.

Lemma snapshots_are_permutations_witness :
  let h := [mkDevice "ppu-0" Healthy; mkDevice "ppu-1" Unhealthy] in
  let p := mkPPUDevicePlugin "alibabacloud.com/ppu" 2 "/tmp"
             (<["ppu-0" := 0%nat]> (<["ppu-1" := 1%nat]> ∅)) in
  let order1 := [("ppu-0", 0%nat); ("ppu-1", 1%nat)] in
  let order2 := [("ppu-1", 1%nat); ("ppu-0", 0%nat)] in
  wf h p
  ∧ range_order (devices p) order1
  ∧ range_order (devices p) order2
  ∧ ∃ ds1 ds2,
      marshal h (deviceList order1) = Some (mkListAndWatchResponse ds1)
      ∧ marshal h (deviceList order2) = Some (mkListAndWatchResponse ds2)
      ∧ ds1 ≡ₚ ds2
      ∧ length ds1 = 2%nat.
Proof.
  intros h p order1 order2.
  assert (Hwf : wf h p).
  { apply (bool_decide_unpack _). vm_compute. exact I. }
  assert (Hord1 : range_order (devices p) order1).
  { replace (devices p) with (list_to_map order1 : gmap string nat)
      by (vm_compute; reflexivity).
    apply range_order_list_to_map. apply (bool_decide_unpack _). vm_compute. exact I. }
  assert (Hord2 : range_order (devices p) order2).
  { replace (devices p) with (list_to_map order2 : gmap string nat)
      by (vm_compute; reflexivity).
    apply range_order_list_to_map. apply (bool_decide_unpack _). vm_compute. exact I. }
  split; [exact Hwf|]. split; [exact Hord1|]. split; [exact Hord2|].
  destruct (snapshots_are_permutations h p order1 order2 Hwf Hord1 Hord2)
    as (ds1 & ds2 & H1 & H2 & Hperm & Hlen & _).
  exists ds1, ds2. split; [exact H1|]. split; [exact H2|]. split; [exact Hperm|].
  rewrite Hlen. vm_compute. reflexivity.
Defined.

Lemma wf_setHealth (h : heap) (p : PPUDevicePlugin) (ptr : addr) (d : Device) (v : string) :
  wf h p → h !! ptr = Some d → wf (<[ptr := mkDevice (ID d) v]> h) p.
Proof.
  intros Hwf Hd id a Hid. simpl.
  destruct (decide (a = ptr)) as [->|Hne].
  - rewrite list_lookup_insert_eq by (by eapply lookup_lt_Some). simpl.
    destruct (wf_deref h p Hwf id ptr Hid) as (d' & Hd' & <-). congruence.
  - rewrite list_lookup_insert_ne by done. apply (Hwf id a Hid).
Qed.

Lemma updateDevice_alias (h : heap) (p : PPUDevicePlugin) (id : string) (device : addr) :
  wf h p → devices p !! id = Some device → updateDevice h p device = Some h.
Proof.
  intros Hwf Hid. destruct (wf_deref h p Hwf id device Hid) as (d & Hd & <-).
  unfold updateDevice, setHealth. rewrite Hd. simpl. rewrite Hid, Hd. simpl.
  f_equal. destruct d as [i hl]. simpl. by apply list_insert_id.
Qed.

(** C3. The watch session only reads the registry.  A Health Change Event
    is a record the Health Monitor took out of the registry: every record a
    tick emits is one the registry points to.  Handling such an event, on
    whatever store satisfying the invariant the session finds, leaves the
    store exactly as it was, so the event acts as a wake-up only; and the
    message the session then sends is read from that unchanged store through
    the registry's pointers. *)
Theorem watch_session_only_reads (h : heap) (p : PPUDevicePlugin) (device : addr) :
  wf h p →
  (∃ id, devices p !! id = Some device) →
  updateDevice h p device = Some h
  ∧ (∀ order sent,
       range_order (devices p) order →
       ∃ response,
         marshal h (deviceList order) = Some response
         ∧ ListAndWatch_loop h p [mkWakeup (recvHealth device) order None] sent
           = Some (h, sent ++ [response], blocked))
  ∧ (∀ h0 h1 order0 receiver out ptr,
       wf h0 p → range_order (devices p) order0 →
       healthCheck h0 p order0 receiver = Some (h1, out) →
       ptr ∈ emitted <$> out →
       ∃ id, devices p !! id = Some ptr).
Proof.
  intros Hwf [id Hid].
  assert (Hsame : updateDevice h p device = Some h)
    by (by apply (updateDevice_alias h p id)).
  split; [done|]. split.
  - intros order sent Hord. eexists. split; [by apply (marshal_deviceList h p)|].
    cbn [ListAndWatch_loop w_case w_order w_sendErr]. rewrite Hsame. simpl.
    by rewrite (marshal_deviceList h p order Hwf Hord).
  - intros h0 h1 order0 receiver out ptr Hwf0 Hord0 Hrun Hin.
    by apply (healthCheck_emits_registered h0 h1 p order0 receiver out ptr).
Qed.

(** A watch session receiving the record the Health Monitor has just healed
    and emitted. *)
Lemma watch_session_only_reads_witness :
  let h0 := [mkDevice "ppu-0" Unhealthy; mkDevice "ppu-1" Healthy] in
  let p := mkPPUDevicePlugin "alibabacloud.com/ppu" 2 "/tmp"
             (<["ppu-0" := 0%nat]> (<["ppu-1" := 1%nat]> ∅)) in
  let h := [mkDevice "ppu-0" Healthy; mkDevice "ppu-1" Healthy] in
  healthCheck h0 p [("ppu-0", 0%nat); ("ppu-1", 1%nat)] [true] = Some (h, [sent_update 0%nat])
  ∧ wf h p
  ∧ (∃ id, devices p !! id = Some 0%nat)
  ∧ updateDevice h p 0%nat = Some h.
Proof.
  intros h0 p h.
  assert (Hwf : wf h p).
  { apply (bool_decide_unpack _). vm_compute. exact I. }
  assert (Hreg : ∃ id, devices p !! id = Some 0%nat) by (by exists "ppu-0").
  split; [vm_compute; reflexivity|]. split; [exact Hwf|]. split; [exact Hreg|].
  exact (proj1 (watch_session_only_reads h p 0%nat Hwf Hreg)).
Defined.

(** ** Monitor and watch session interleaved *)

Lemma healthCheck_loop_visit (h : heap) (k : string) (a : addr) (r : bool)
    (h' : heap) (out : list emission) :
  healthCheck_loop h [(k, a)] [r] [] = Some (h', out) →
  ∃ d, h !! a = Some d
       ∧ ((Health d ≠ Healthy ∧ h' = <[a := mkDevice (ID d) Healthy]> h)
          ∨ (Health d = Healthy ∧ h' = h)).
Proof.
  cbn [healthCheck_loop]. destruct (h !! a) as [d|] eqn:Hd; simpl; [|done].
  destruct (decide (Health d ≠ Healthy)) as [Hbad|Hok].
  - unfold setHealth. rewrite Hd. simpl. destruct r; simpl; intros [= <- <-]; eauto.
  - intros [= <- <-]. apply dec_stable in Hok. eauto.
Qed.




Lemma session_step_inv (c c' : config) :
  session_step c = Some c' →
  ∃ ptr d,
    c_session c = ptr :: c_session c'
    ∧ c_heap c !! ptr = Some d
    ∧ c_wire c' = c_wire c ++ [d]
    ∧ c_heap c' = c_heap c
    ∧ c_monitor c' = c_monitor c.
Proof.
  unfold session_step. destruct (c_session c) as [|ptr rest]; [done|].
  destruct (c_heap c !! ptr) as [d|] eqn:Hd; [|done].
  simpl. intros [= <-]. simpl. eauto 10.
Qed.


(** A run in which only the session acts leaves the store alone and
    serialises exactly what the store holds. *)
Lemma run_reads_alone (schedule : list action) :
  Forall (λ a, a = sendRead) schedule →
  ∀ c0 c,
    run schedule c0 = Some c →
    c_heap c = c_heap c0
    ∧ ∃ read new,
        c_session c0 = read ++ c_session c
        ∧ c_wire c = c_wire c0 ++ new
        ∧ mapM (λ ptr : addr, c_heap c0 !! ptr) read = Some new.
Proof.
  induction 1 as [|a schedule -> _ IH]; intros c0 c; simpl.
  - intros [= <-]. split; [done|]. exists [], []. by rewrite app_nil_r.
  - destruct (session_step c0) as [c1|] eqn:Hact; [|done]. simpl. intros Hrun.
    destruct (session_step_inv c0 c1 Hact) as (ptr & d & Hs & Hd & Hw & Hheap & _).
    destruct (IH c1 c Hrun) as (Hhc & read & new & Hread & Hnew & HM).
    split; [congruence|]. exists (ptr :: read), (d :: new).
    split; [by rewrite Hs, Hread|].
    split; [by rewrite Hnew, Hw, <- app_assoc|].
    cbn [mapM]. rewrite Hd. simpl. rewrite <- Hheap, HM. done.
Qed.

(** A run in which only the monitor acts, one visit per entry, ends in the
    store the tick body computes. *)
Lemma run_ticks_alone (order : list (string * addr)) :
  ∀ (rs : list bool) (c0 c : config),
    c_monitor c0 = order →
    length rs = length order →
    run (tickVisit <$> rs) c0 = Some c →
    ∀ receiver out0, ∃ out,
      healthCheck_loop (c_heap c0) order receiver out0 = Some (c_heap c, out).
Proof.
  induction order as [|[k a] order IH]; intros rs c0 c Hmon Hlen Hrun receiver out0.
  - destruct rs; [|done]. simpl in Hrun. injection Hrun as <-. simpl. eauto.
  - destruct rs as [|r rs]; [done|]. simpl in Hlen, Hrun.
    destruct (monitor_step r c0) as [c1|] eqn:Hact; [|done]. simpl in Hrun.
    unfold monitor_step in Hact. rewrite Hmon in Hact.
    destruct (healthCheck_loop (c_heap c0) [(k, a)] [r] []) as [[h1 o1]|] eqn:Hv; [|done].
    simpl in Hact. injection Hact as <-.
    apply healthCheck_loop_visit in Hv as (d & Hd & Hcase).
    cbn [healthCheck_loop]. rewrite Hd. simpl.
    destruct Hcase as [[Hbad ->]|[Hok ->]].
    + rewrite decide_True by done. unfold setHealth. rewrite Hd. simpl.
      destruct (trySend a receiver) as [e receiver'].
      refine (IH rs (mkConfig _ _ _ _ _) c eq_refl _ Hrun _ _). lia.
    + rewrite decide_False by (intros Hbad; by apply Hbad).
      refine (IH rs (mkConfig _ _ _ _ _) c eq_refl _ Hrun _ _). lia.
Qed.

(** * Further properties of the package *)

(** ** initDevices on any plugin *)

Lemma initDevices_fold_fields (idxs : list Z) (h : heap) (p : PPUDevicePlugin) :
  let p' := (foldl initDevices_body (h, p) idxs).2 in
  resourceName p' = resourceName p ∧ deviceCount p' = deviceCount p
  ∧ socketPath p' = socketPath p.
Proof.
  revert h p. induction idxs as [|i idxs IH]; intros h p; simpl; [done|].
  unfold initDevices_body at 2 4 6. simpl.
  by destruct (IH (h ++ [mkDevice (ppuID i) Healthy])
                  (set_devices p (<[ppuID i := length h]> (devices p)))) as (-> & -> & ->).
Qed.

Lemma initDevices_new_record (h : heap) (p : PPUDevicePlugin) (i : Z) :
  i ∈ seqZ 0 (deviceCount p) →
  ∃ ptr, devices (initDevices h p).1.2 !! ppuID i = Some ptr
         ∧ (length h ≤ ptr)%nat
         ∧ (initDevices h p).1.1 !! ptr = Some (mkDevice (ppuID i) Healthy).
Proof.
  intros Hi. apply list_elem_of_lookup in Hi as [k Hk].
  exists (length h + k)%nat. unfold initDevices. simpl.
  split; [by apply initDevices_fold_lookup; [apply NoDup_seqZ|]|].
  split; [lia|].
  rewrite initDevices_fold_heap, lookup_app_r by lia.
  replace (length h + k - length h)%nat with k by lia.
  by rewrite list_lookup_fmap, Hk.
Qed.

Lemma initDevices_wf_any (h : heap) (p : PPUDevicePlugin) :
  wf h p → wf (initDevices h p).1.1 (initDevices h p).1.2.
Proof.
  intros Hwf id ptr Hid. cbv beta.
  destruct (decide (id ∈ ppuID <$> seqZ 0 (deviceCount p))) as [Hin|Hnin].
  - apply list_elem_of_fmap in Hin as (i & -> & Hi).
    destruct (initDevices_new_record h p i Hi) as (ptr' & Hptr & _ & Hrec).
    assert (ptr' = ptr) as -> by congruence. by rewrite Hrec.
  - unfold initDevices in Hid |- *. simpl in Hid |- *.
    rewrite initDevices_fold_other in Hid by done.
    destruct (wf_deref h p Hwf id ptr Hid) as (d & Hd & <-).
    rewrite initDevices_fold_heap, lookup_app_l by (by eapply lookup_lt_Some).
    by rewrite Hd.
Qed.

Lemma initDevices_fresh_health (h : heap) (p : PPUDevicePlugin) (id : string) :
  devices p = ∅ →
  registeredHealthy (initDevices h p).1.1 (initDevices h p).1.2 id
  ↔ id ∈ ppuID <$> seqZ 0 (deviceCount p).
Proof.
  intros Hempty. unfold registeredHealthy, healthOf. split.
  - destruct (devices (initDevices h p).1.2 !! id) as [ptr|] eqn:Hid; [|done].
    intros _. assert (Hdom : id ∈ dom (devices (initDevices h p).1.2))
      by (apply elem_of_dom; eauto).
    unfold initDevices in Hdom. simpl in Hdom.
    rewrite initDevices_fold_dom, Hempty, dom_empty_L in Hdom. set_solver.
  - intros (i & -> & Hi)%list_elem_of_fmap.
    destruct (initDevices_new_record h p i Hi) as (ptr & -> & _ & Hrec).
    change (Health <$> (initDevices h p).1.1 !! ptr = Some Healthy).
    by rewrite Hrec.
Qed.

(** X1. A plugin configured with a zero or negative count is accepted:
    initDevices runs no iteration, leaves the store and the registry as they
    are and returns nil. *)
Theorem initDevices_nonpositive_count (h : heap) (p : PPUDevicePlugin) :
  deviceCount p ≤ 0 → initDevices h p = (h, p, nil_error).
Proof. intros Hn. unfold initDevices. by rewrite seqZ_nil. Qed.

Lemma initDevices_nonpositive_count_witness :
  initDevices [] (NewPPUDevicePlugin "alibabacloud.com/ppu" (-3) "/tmp")
  = ([], NewPPUDevicePlugin "alibabacloud.com/ppu" (-3) "/tmp", nil_error).
Proof.
  apply (initDevices_nonpositive_count [] (NewPPUDevicePlugin "alibabacloud.com/ppu" (-3) "/tmp")).
  simpl. lia.
Defined.

(** X2. initDevices run on a registry that already holds entries keeps the
    registry invariant, appends only fresh Healthy records to the store (the
    records already there are untouched), removes no key, leaves the keys
    other than ppu-0 .. ppu-(count-1) pointing where they did, makes each of
    ppu-0 .. ppu-(count-1) Healthy again whatever it was, and changes none of
    the plugin's other fields. *)
Theorem initDevices_again (h : heap) (p : PPUDevicePlugin) :
  wf h p →
  let r := initDevices h p in
  wf r.1.1 r.1.2
  ∧ (∃ fresh, r.1.1 = h ++ fresh
              ∧ Forall (λ d, Health d = Healthy) fresh
              ∧ length fresh = Z.to_nat (deviceCount p))
  ∧ dom (devices p) ⊆ dom (devices r.1.2)
  ∧ (∀ id, id ∉ ppuID <$> seqZ 0 (deviceCount p) →
           devices r.1.2 !! id = devices p !! id
           ∧ healthOf r.1.1 r.1.2 id = healthOf h p id)
  ∧ (∀ i, 0 ≤ i < deviceCount p → healthOf r.1.1 r.1.2 (ppuID i) = Some Healthy)
  ∧ resourceName r.1.2 = resourceName p
  ∧ deviceCount r.1.2 = deviceCount p
  ∧ socketPath r.1.2 = socketPath p.
Proof.
  intros Hwf r. split; [by apply initDevices_wf_any|].
  split; [|split; [|split; [|split]]].
  - exists ((λ i, mkDevice (ppuID i) Healthy) <$> seqZ 0 (deviceCount p)).
    split; [apply initDevices_fold_heap|]. split.
    + apply Forall_fmap, Forall_forall. by intros.
    + by rewrite length_fmap, length_seqZ.
  - unfold r, initDevices. simpl. rewrite initDevices_fold_dom. set_solver.
  - intros id Hid.
    assert (Hsame : devices r.1.2 !! id = devices p !! id)
      by (by apply initDevices_fold_other).
    split; [done|]. unfold healthOf. rewrite Hsame.
    destruct (devices p !! id) as [ptr|] eqn:Hptr; [|done]. simpl.
    destruct (wf_deref h p Hwf id ptr Hptr) as (d & Hd & _).
    unfold r, initDevices. simpl.
    by rewrite initDevices_fold_heap, lookup_app_l by (by eapply lookup_lt_Some).
  - intros i Hi.
    destruct (initDevices_new_record h p i) as (ptr & Hptr & _ & Hrec);
      [apply elem_of_seqZ; lia|].
    unfold healthOf. fold r in Hptr, Hrec. rewrite Hptr.
    change (Health <$> r.1.1 !! ptr = Some Healthy). by rewrite Hrec.
  - apply (initDevices_fold_fields _ h p).
Qed.

Lemma initDevices_again_witness :
  let h := [mkDevice "ppu-0" Unhealthy; mkDevice "gpu-7" Unhealthy] in
  let p := mkPPUDevicePlugin "alibabacloud.com/ppu" 1 "/tmp"
             (<["ppu-0" := 0%nat]> (<["gpu-7" := 1%nat]> ∅)) in
  let r := initDevices h p in
  wf h p
  ∧ wf r.1.1 r.1.2
  ∧ healthOf h p "ppu-0" = Some Unhealthy
  ∧ healthOf r.1.1 r.1.2 "ppu-0" = Some Healthy
  ∧ healthOf r.1.1 r.1.2 "gpu-7" = Some Unhealthy.
Proof.
  intros h p r.
  assert (Hwf : wf h p).
  { apply (bool_decide_unpack _). vm_compute. exact I. }
  destruct (initDevices_again h p Hwf) as (Hwf' & _ & _ & _ & Hnew & _).
  split; [exact Hwf|]. split; [exact Hwf'|].
  split; [vm_compute; reflexivity|].
  split; [apply (Hnew 0); simpl; lia|].
  vm_compute. reflexivity.
Defined.

(** X3. Allocate on a freshly initialised plugin: whatever the configured
    count n, the ids allocated to a container are its requested ids that are
    among ppu-0 .. ppu-(n-1), in the order and with the repetitions of the
    request. *)
Theorem Allocate_after_initDevices (rn sp : string) (n : Z) (h0 : heap)
    (containerRequest : ContainerAllocateRequest) :
  let r := initDevices h0 (NewPPUDevicePlugin rn n sp) in
  allocatedDevices r.1.1 r.1.2 containerRequest
  = Some (filter (λ id, id ∈ ppuID <$> seqZ 0 n) (DevicesIDs containerRequest)).
Proof.
  intros r. unfold r.
  rewrite allocatedDevices_filter by (by apply initDevices_wf).
  f_equal. apply list_filter_iff. intros id.
  by apply (initDevices_fresh_health h0 (NewPPUDevicePlugin rn n sp) id).
Qed.

(** ** More on Allocate *)

(** X4. Allocate treats the containers of a request independently and keeps
    their order: the responses to a request made of two lists of container
    requests are the responses to the first list followed by the responses
    to the second. *)
Theorem Allocate_containers_independent (h : heap) (p : PPUDevicePlugin)
    (reqs1 reqs2 : list ContainerAllocateRequest) :
  wf h p →
  ∃ rs1 rs2,
    Allocate h p (mkAllocateRequest reqs1) = Some (mkAllocateResponse rs1, nil_error)
    ∧ Allocate h p (mkAllocateRequest reqs2) = Some (mkAllocateResponse rs2, nil_error)
    ∧ Allocate h p (mkAllocateRequest (reqs1 ++ reqs2))
      = Some (mkAllocateResponse (rs1 ++ rs2), nil_error).
Proof.
  intros Hwf. do 2 eexists.
  split; [by apply Allocate_map|]. split; [by apply Allocate_map|].
  rewrite Allocate_map by done. simpl. by rewrite fmap_app.
Qed.

Lemma Allocate_containers_independent_witness :
  let h := [mkDevice "ppu-0" Healthy; mkDevice "ppu-1" Unhealthy] in
  let p := mkPPUDevicePlugin "alibabacloud.com/ppu" 2 "/tmp"
             (<["ppu-0" := 0%nat]> (<["ppu-1" := 1%nat]> ∅)) in
  let reqs1 := [mkContainerAllocateRequest ["ppu-1"; "ppu-0"]] in
  let reqs2 := [mkContainerAllocateRequest ["ppu-0"]; mkContainerAllocateRequest []] in
  wf h p
  ∧ ∃ rs1 rs2,
      Allocate h p (mkAllocateRequest reqs1) = Some (mkAllocateResponse rs1, nil_error)
      ∧ Allocate h p (mkAllocateRequest reqs2) = Some (mkAllocateResponse rs2, nil_error)
      ∧ Allocate h p (mkAllocateRequest (reqs1 ++ reqs2))
        = Some (mkAllocateResponse (rs1 ++ rs2), nil_error).
Proof.
  intros h p reqs1 reqs2.
  assert (Hwf : wf h p).
  { apply (bool_decide_unpack _). vm_compute. exact I. }
  split; [exact Hwf|]. exact (Allocate_containers_independent h p reqs1 reqs2 Hwf).
Defined.

(** X5. Every container response of Allocate is built from the ids allocated
    to that container alone: its device bindings are /dev/<id> -> /dev/null
    with permissions rw, one per allocated id and in their order; it has no
    mounts; PPU_DEVICE_COUNT is the number of bindings;
    PPU_ALLOCATED_DEVICES and the annotation carry the same text; and there
    are exactly two environment variables and one annotation. *)
Theorem Allocate_response_bindings (h : heap) (p : PPUDevicePlugin)
    (request : AllocateRequest) (i : nat) (containerRequest : ContainerAllocateRequest) :
  wf h p →
  alloc_ContainerRequests request !! i = Some containerRequest →
  ∃ response resp allocated,
    Allocate h p request = Some (response, nil_error)
    ∧ alloc_ContainerResponses response !! i = Some resp
    ∧ allocatedDevices h p containerRequest = Some allocated
    ∧ Devices resp
      = (λ id, mkDeviceSpec ("/dev/" +:+ id) "/dev/null" "rw") <$> allocated
    ∧ Mounts resp = []
    ∧ Envs resp !! "PPU_DEVICE_COUNT"
      = Some (pretty (Z.of_nat (length (Devices resp))))
    ∧ Envs resp !! "PPU_ALLOCATED_DEVICES" = Some (Join allocated ",")
    ∧ Annotations resp !! "ppu.alibabacloud.com/allocated-devices"
      = Some (Join allocated ",")
    ∧ size (Envs resp) = 2%nat
    ∧ size (Annotations resp) = 1%nat.
Proof.
  intros Hwf Hi.
  exists (mkAllocateResponse
            ((λ cr, containerResponse (filter (registeredHealthy h p) (DevicesIDs cr)))
               <$> alloc_ContainerRequests request)),
         (containerResponse (filter (registeredHealthy h p) (DevicesIDs containerRequest))),
         (filter (registeredHealthy h p) (DevicesIDs containerRequest)).
  split; [by apply Allocate_map|].
  split; [simpl; by rewrite list_lookup_fmap, Hi|].
  split; [by apply allocatedDevices_filter|].
  split; [apply containerResponse_Devices|]. split; [done|].
  split; [by rewrite containerResponse_Devices, length_fmap|].
  split; [done|]. split; [done|]. split.
  - unfold containerResponse. simpl.
    rewrite map_size_insert_None, map_size_insert_None, map_size_empty; done.
  - unfold containerResponse. simpl.
    by rewrite map_size_insert_None, map_size_empty.
Qed.

Lemma Allocate_response_bindings_witness :
  let h := [mkDevice "ppu-0" Healthy; mkDevice "ppu-1" Unhealthy] in
  let p := mkPPUDevicePlugin "alibabacloud.com/ppu" 2 "/tmp"
             (<["ppu-0" := 0%nat]> (<["ppu-1" := 1%nat]> ∅)) in
  let containerRequest := mkContainerAllocateRequest ["ppu-1"; "ppu-0"] in
  let request := mkAllocateRequest [mkContainerAllocateRequest []; containerRequest] in
  wf h p
  ∧ alloc_ContainerRequests request !! 1%nat = Some containerRequest
  ∧ ∃ response resp,
      Allocate h p request = Some (response, nil_error)
      ∧ alloc_ContainerResponses response !! 1%nat = Some resp
      ∧ Mounts resp = []
      ∧ size (Envs resp) = 2%nat.
Proof.
  intros h p containerRequest request.
  assert (Hwf : wf h p).
  { apply (bool_decide_unpack _). vm_compute. exact I. }
  assert (Hi : alloc_ContainerRequests request !! 1%nat = Some containerRequest)
    by reflexivity.
  split; [exact Hwf|]. split; [exact Hi|].
  destruct (Allocate_response_bindings h p request 1 containerRequest Hwf Hi)
    as (response & resp & allocated & HA & Hresp & _ & _ & HM & _ & _ & _ & HE & _).
  exists response, resp. split; [exact HA|]. split; [exact Hresp|].
  split; [exact HM|exact HE].
Defined.

(** X6. Allocating again what was allocated changes nothing: a container
    request made of the ids a previous Allocate granted, on the same
    registry state, is granted in full. *)
Theorem Allocate_allocated_again (h : heap) (p : PPUDevicePlugin)
    (containerRequest : ContainerAllocateRequest) (allocated : list string) :
  wf h p →
  allocatedDevices h p containerRequest = Some allocated →
  allocatedDevices h p (mkContainerAllocateRequest allocated) = Some allocated.
Proof.
  intros Hwf. rewrite !allocatedDevices_filter by done. intros [= <-]. simpl.
  f_equal. rewrite list_filter_filter. apply list_filter_iff. tauto.
Qed.

Lemma Allocate_allocated_again_witness :
  let h := [mkDevice "ppu-0" Healthy; mkDevice "ppu-1" Unhealthy] in
  let p := mkPPUDevicePlugin "alibabacloud.com/ppu" 2 "/tmp"
             (<["ppu-0" := 0%nat]> (<["ppu-1" := 1%nat]> ∅)) in
  wf h p
  ∧ allocatedDevices h p (mkContainerAllocateRequest ["ppu-1"; "ppu-0"; "ppu-4"; "ppu-0"])
    = Some ["ppu-0"; "ppu-0"]
  ∧ allocatedDevices h p (mkContainerAllocateRequest ["ppu-0"; "ppu-0"])
    = Some ["ppu-0"; "ppu-0"].
Proof.
  intros h p.
  assert (Hwf : wf h p).
  { apply (bool_decide_unpack _). vm_compute. exact I. }
  assert (H1 : allocatedDevices h p
                 (mkContainerAllocateRequest ["ppu-1"; "ppu-0"; "ppu-4"; "ppu-0"])
               = Some ["ppu-0"; "ppu-0"]) by (vm_compute; reflexivity).
  split; [exact Hwf|]. split; [exact H1|].
  exact (Allocate_allocated_again h p _ _ Hwf H1).
Defined.

(** ** More on the health monitor *)

Lemma healthCheck_post (h h' : heap) (p : PPUDevicePlugin)
    (order : list (string * addr)) (receiver : list bool) (out : list emission) :
  wf h p → range_order (devices p) order →
  healthCheck h p order receiver = Some (h', out) →
  wf h' p ∧ length h' = length h
  ∧ ∀ id ptr, devices p !! id = Some ptr → h' !! ptr = Some (mkDevice id Healthy).
Proof.
  intros Hwf Hord Hrun.
  destruct (range_order_pointers h p order Hwf Hord) as [Hnd Halloc].
  destruct (healthCheck_loop_spec order h receiver [] Halloc Hnd)
    as (h1 & Hrun1 & Hlen & Hpt).
  unfold healthCheck in Hrun. rewrite Hrun in Hrun1. injection Hrun1 as Hh _. subst h1.
  assert (Hreg : ∀ id ptr, devices p !! id = Some ptr →
                           h' !! ptr = Some (mkDevice id Healthy)).
  { intros id ptr Hid.
    destruct (wf_deref h p Hwf id ptr Hid) as (d & Hd & <-).
    rewrite (Hpt ptr d Hd). rewrite decide_True; [done|].
    apply list_elem_of_fmap. exists (ID d, ptr). split; [done|].
    by apply (range_order_elem_of _ _ _ _ Hord). }
  split; [|done]. intros id ptr Hid. cbv beta. by rewrite (Hreg id ptr Hid).
Qed.

Lemma healthCheck_loop_noop (h : heap) (order : list (string * addr))
    (receiver : list bool) (out : list emission) :
  Forall (λ kv, ∃ d, h !! kv.2 = Some d ∧ Health d = Healthy) order →
  healthCheck_loop h order receiver out = Some (h, out).
Proof.
  induction 1 as [|[k a] order (d & Hd & Hok) _ IH]; [done|].
  cbn [healthCheck_loop]. simpl in Hd. rewrite Hd. simpl.
  by rewrite decide_False by (intros Hbad; by apply Hbad).
Qed.

Lemma healthCheck_noop (h : heap) (p : PPUDevicePlugin)
    (order : list (string * addr)) (receiver : list bool) :
  range_order (devices p) order →
  (∀ id ptr, devices p !! id = Some ptr → ∃ d, h !! ptr = Some d ∧ Health d = Healthy) →
  healthCheck h p order receiver = Some (h, []).
Proof.
  intros Hord Hall. apply healthCheck_loop_noop.
  apply Forall_forall. intros [k a] Hin. simpl.
  apply (Hall k). by apply (range_order_elem_of _ _ _ _ Hord).
Qed.

(** X7. After a tick every registered id is allocatable: Allocate on the
    store a tick leaves grants exactly the requested ids the registry holds,
    whatever their health was before the tick. *)
Theorem Allocate_after_healthCheck (h h' : heap) (p : PPUDevicePlugin)
    (order : list (string * addr)) (receiver : list bool) (out : list emission)
    (containerRequest : ContainerAllocateRequest) :
  wf h p →
  range_order (devices p) order →
  healthCheck h p order receiver = Some (h', out) →
  allocatedDevices h' p containerRequest
  = Some (filter (λ id, is_Some (devices p !! id)) (DevicesIDs containerRequest)).
Proof.
  intros Hwf Hord Hrun.
  destruct (healthCheck_post h h' p order receiver out Hwf Hord Hrun) as (Hwf' & _ & Hreg).
  rewrite allocatedDevices_filter by done. f_equal.
  apply list_filter_iff. intros id. rewrite registeredHealthy_iff. split.
  - intros (ptr & d & Hid & _). eauto.
  - intros [ptr Hid]. exists ptr, (mkDevice id Healthy). split; [done|].
    split; [by apply Hreg|done].
Qed.

Lemma Allocate_after_healthCheck_witness :
  let h := [mkDevice "ppu-0" Unhealthy; mkDevice "ppu-1" Healthy] in
  let p := mkPPUDevicePlugin "alibabacloud.com/ppu" 2 "/tmp"
             (<["ppu-0" := 0%nat]> (<["ppu-1" := 1%nat]> ∅)) in
  let order := [("ppu-1", 1%nat); ("ppu-0", 0%nat)] in
  let h' := [mkDevice "ppu-0" Healthy; mkDevice "ppu-1" Healthy] in
  let containerRequest := mkContainerAllocateRequest ["ppu-0"; "ppu-5"; "ppu-1"] in
  wf h p
  ∧ range_order (devices p) order
  ∧ healthCheck h p order [] = Some (h', [skipped_update 0%nat])
  ∧ allocatedDevices h p containerRequest = Some ["ppu-1"]
  ∧ allocatedDevices h' p containerRequest = Some ["ppu-0"; "ppu-1"].
Proof.
  intros h p order h' containerRequest.
  assert (Hwf : wf h p).
  { apply (bool_decide_unpack _). vm_compute. exact I. }
  assert (Hord : range_order (devices p) order).
  { replace (devices p) with (list_to_map order : gmap string nat)
      by (vm_compute; reflexivity).
    apply range_order_list_to_map. apply (bool_decide_unpack _). vm_compute. exact I. }
  assert (Hrun : healthCheck h p order [] = Some (h', [skipped_update 0%nat]))
    by (vm_compute; reflexivity).
  split; [exact Hwf|]. split; [exact Hord|]. split; [exact Hrun|].
  split; [vm_compute; reflexivity|].
  rewrite (Allocate_after_healthCheck h h' p order [] _ containerRequest Hwf Hord Hrun).
  vm_compute. reflexivity.
Defined.

(** X8. The first tick settles the registry.  When the monitor goroutine
    sees the ticker fire and then any further ticks and stop signals, the
    store and the emissions it ends with are those of the first tick body
    alone: every later tick finds all entries Healthy, writes nothing and
    emits nothing.  The goroutine has returned exactly when a stop signal
    is among the later events. *)
Theorem startHealthCheck_first_tick_settles (h : heap) (p : PPUDevicePlugin)
    (order : list (string * addr)) (receiver : list bool) (rest : list monitor_case) :
  wf h p →
  range_order (devices p) order →
  Forall (λ ev, match ev with
                | tickerFired o _ => range_order (devices p) o
                | stopClosed => True
                end) rest →
  ∃ h' out stopped,
    healthCheck h p order receiver = Some (h', out)
    ∧ startHealthCheck_loop h p (tickerFired order receiver :: rest) []
      = Some (h', out, stopped)
    ∧ (stopped = true ↔ stopClosed ∈ rest).
Proof.
  intros Hwf Hord Hrest.
  destruct (range_order_pointers h p order Hwf Hord) as [Hnd Halloc].
  destruct (healthCheck_loop_spec order h receiver [] Halloc Hnd)
    as (h' & Hrun & _).
  simpl in Hrun. set (out := announce _ _) in Hrun.
  destruct (healthCheck_post h h' p order receiver out Hwf Hord Hrun) as (_ & _ & Hreg).
  assert (Hloop : ∀ acc, ∃ stopped,
            startHealthCheck_loop h' p rest acc = Some (h', acc, stopped)
            ∧ (stopped = true ↔ stopClosed ∈ rest)).
  { clear Hrun. induction Hrest as [|ev rest Hev _ IH]; intros acc.
    - exists false. split; [done|]. split; [done|]. by intros ?%elem_of_nil.
    - destruct ev as [o r|].
      + cbn [startHealthCheck_loop].
        rewrite (healthCheck_noop h' p o r Hev) by (intros id ptr Hid; eauto).
        simpl. rewrite app_nil_r. destruct (IH acc) as (stopped & Hs & Hiff).
        exists stopped. split; [done|]. rewrite Hiff, elem_of_cons. naive_solver.
      + exists true. split; [done|]. split; [intros _; by left|done]. }
  destruct (Hloop out) as (stopped & Hs & Hiff).
  exists h', out, stopped. split; [done|]. split; [|done].
  cbn [startHealthCheck_loop]. unfold healthCheck in Hrun |- *. rewrite Hrun. simpl.
  done.
Qed.

Lemma startHealthCheck_first_tick_settles_witness :
  let h := [mkDevice "ppu-0" Unhealthy; mkDevice "ppu-1" Unhealthy] in
  let p := mkPPUDevicePlugin "alibabacloud.com/ppu" 2 "/tmp"
             (<["ppu-0" := 0%nat]> (<["ppu-1" := 1%nat]> ∅)) in
  let order := [("ppu-1", 1%nat); ("ppu-0", 0%nat)] in
  let rest := [tickerFired order [true; true]; stopClosed; tickerFired order []] in
  wf h p
  ∧ range_order (devices p) order
  ∧ startHealthCheck_loop h p (tickerFired order [true] :: rest) []
    = Some ([mkDevice "ppu-0" Healthy; mkDevice "ppu-1" Healthy],
            [sent_update 1%nat; skipped_update 0%nat], true)
  ∧ ∃ h' out stopped,
      startHealthCheck_loop h p (tickerFired order [true] :: rest) []
      = Some (h', out, stopped)
      ∧ healthCheck h p order [true] = Some (h', out).
Proof.
  intros h p order rest.
  assert (Hwf : wf h p).
  { apply (bool_decide_unpack _). vm_compute. exact I. }
  assert (Hord : range_order (devices p) order).
  { replace (devices p) with (list_to_map order : gmap string nat)
      by (vm_compute; reflexivity).
    apply range_order_list_to_map. apply (bool_decide_unpack _). vm_compute. exact I. }
  assert (Hrest : Forall (λ ev, match ev with
                                | tickerFired o _ => range_order (devices p) o
                                | stopClosed => True
                                end) rest).
  { apply Forall_cons_2; [exact Hord|]. apply Forall_cons_2; [exact I|].
    apply Forall_cons_2; [exact Hord|]. apply Forall_nil_2. }
  split; [exact Hwf|]. split; [exact Hord|]. split; [vm_compute; reflexivity|].
  destruct (startHealthCheck_first_tick_settles h p order [true] rest Hwf Hord Hrest)
    as (h' & out & stopped & Hrun & Hloop & _).
  exists h', out, stopped. split; [exact Hloop|exact Hrun].
Defined.

(** ** More on the watch session *)

Lemma updateDevice_wf (h : heap) (p : PPUDevicePlugin) (device : addr) :
  wf h p → (device < length h)%nat →
  ∃ h', updateDevice h p device = Some h' ∧ wf h' p ∧ length h' = length h.
Proof.
  intros Hwf Hlt. destruct (lookup_lt_is_Some_2 h device Hlt) as [d Hd].
  unfold updateDevice. rewrite Hd. simpl.
  destruct (devices p !! ID d) as [existing|] eqn:Hid; [|by exists h].
  destruct (wf_deref h p Hwf (ID d) existing Hid) as (d' & Hd' & _).
  exists (<[existing := mkDevice (ID d') (Health d)]> h).
  unfold setHealth. rewrite Hd'. simpl.
  split; [done|]. split; [by apply wf_setHealth|by rewrite length_insert].
Qed.

Lemma valid_wakeup_length (h h' : heap) (p : PPUDevicePlugin) (w : wakeup) :
  length h' = length h → valid_wakeup h p w → valid_wakeup h' p w.
Proof.
  intros Hlen [Hord Hcase]. split; [done|].
  destruct (w_case w); [lia|done].
Qed.

Lemma snapshot_ids (h : heap) (p : PPUDevicePlugin) (order : list (string * addr)) :
  wf h p → range_order (devices p) order →
  marshal h (deviceList order) = Some (snapshotOf h order)
  ∧ ID <$> lw_Devices (snapshotOf h order) ≡ₚ (map_to_list (devices p)).*1.
Proof.
  intros Hwf Hord. split; [by apply (marshal_deviceList h p)|].
  unfold snapshotOf. simpl.
  rewrite (marshalled_ids h p order Hwf);
    [|by intros k a ?%(range_order_elem_of _ _ _ _ Hord)].
  unfold range_order in Hord. by rewrite Hord.
Qed.

Lemma ListAndWatch_loop_full (p : PPUDevicePlugin) (ws : list wakeup) :
  ∀ (h : heap) (sent : list ListAndWatchResponse),
    wf h p →
    Forall (valid_wakeup h p) ws →
    Forall (λ resp, ID <$> lw_Devices resp ≡ₚ (map_to_list (devices p)).*1) sent →
    ∃ h' sent' e,
      ListAndWatch_loop h p ws sent = Some (h', sent', e)
      ∧ wf h' p ∧ length h' = length h
      ∧ Forall (λ resp, ID <$> lw_Devices resp ≡ₚ (map_to_list (devices p)).*1) sent'
      ∧ (length sent' ≤ length sent + length ws)%nat.
Proof.
  induction ws as [|w ws IH]; intros h sent Hwf Hws Hsent.
  - exists h, sent, blocked. simpl. split; [done|]. split; [done|].
    split; [done|]. split; [done|lia].
  - apply Forall_cons in Hws as [[Hord Hcase] Hws].
    cbn [ListAndWatch_loop]. destruct (w_case w) as [device|].
    + destruct (updateDevice_wf h p device Hwf Hcase) as (h1 & -> & Hwf1 & Hlen1).
      simpl. destruct (snapshot_ids h1 p (w_order w) Hwf1 Hord) as [-> Hids]. simpl.
      destruct (w_sendErr w) as [err|].
      * exists h1, sent, (returned (Some err)). split; [done|]. split; [done|].
        split; [done|]. split; [done|simpl; lia].
      * destruct (IH h1 (sent ++ [snapshotOf h1 (w_order w)]) Hwf1)
          as (h' & sent' & e & Hrun & Hwf' & Hlen' & Hall & Hn).
        { eapply Forall_impl; [exact Hws|]. intros w'. by apply valid_wakeup_length. }
        { apply Forall_app. split; [done|]. by apply Forall_singleton. }
        exists h', sent', e. split; [done|]. split; [done|].
        split; [congruence|]. split; [done|].
        rewrite length_app in Hn. simpl in *. lia.
    + exists h, sent, (returned nil_error). split; [done|]. split; [done|].
      split; [done|]. split; [done|simpl; lia].
Qed.

(** X9. A watch session never sends a delta.  On a registry satisfying its
    invariant, fed any sequence of wake-ups whose received records lie in
    the store, ListAndWatch does not panic, keeps the invariant and the
    size of the store, and every message it sends lists every registry id
    exactly once; it sends at most one message per wake-up beyond the
    initial one. *)
Theorem ListAndWatch_full_snapshots (h : heap) (p : PPUDevicePlugin)
    (order : list (string * addr)) (sendErr : option string) (ws : list wakeup) :
  wf h p →
  range_order (devices p) order →
  Forall (valid_wakeup h p) ws →
  ∃ h' sent e,
    ListAndWatch h p order sendErr ws = Some (h', sent, e)
    ∧ wf h' p ∧ length h' = length h
    ∧ Forall (λ resp, ID <$> lw_Devices resp ≡ₚ (map_to_list (devices p)).*1) sent
    ∧ (length sent ≤ S (length ws))%nat.
Proof.
  intros Hwf Hord Hws. unfold ListAndWatch.
  destruct (snapshot_ids h p order Hwf Hord) as [-> Hids]. simpl.
  destruct sendErr as [err|].
  - exists h, [], (returned (Some err)). split; [done|]. split; [done|].
    split; [done|]. split; [constructor|simpl; lia].
  - destruct (ListAndWatch_loop_full p ws h [snapshotOf h order] Hwf Hws)
      as (h' & sent' & e & Hrun & Hwf' & Hlen' & Hall & Hn).
    { by apply Forall_singleton. }
    exists h', sent', e. split; [done|]. split; [done|]. split; [done|].
    split; [done|]. simpl in Hn. lia.
Qed.

Lemma ListAndWatch_full_snapshots_witness :
  let h := [mkDevice "ppu-0" Healthy; mkDevice "ppu-1" Healthy;
            mkDevice "ppu-1" Unhealthy] in
  let p := mkPPUDevicePlugin "alibabacloud.com/ppu" 2 "/tmp"
             (<["ppu-0" := 0%nat]> (<["ppu-1" := 1%nat]> ∅)) in
  let order := [("ppu-1", 1%nat); ("ppu-0", 0%nat)] in
  let ws := [mkWakeup (recvHealth 2%nat) order None; mkWakeup recvStop order None] in
  wf h p
  ∧ range_order (devices p) order
  ∧ Forall (valid_wakeup h p) ws
  ∧ ListAndWatch h p order None ws
    = Some ([mkDevice "ppu-0" Healthy; mkDevice "ppu-1" Unhealthy;
             mkDevice "ppu-1" Unhealthy],
            [mkListAndWatchResponse [mkDevice "ppu-1" Healthy; mkDevice "ppu-0" Healthy];
             mkListAndWatchResponse [mkDevice "ppu-1" Unhealthy; mkDevice "ppu-0" Healthy]],
            returned nil_error)
  ∧ ∃ h' sent e,
      ListAndWatch h p order None ws = Some (h', sent, e) ∧ wf h' p.
Proof.
  intros h p order ws.
  assert (Hwf : wf h p).
  { apply (bool_decide_unpack _). vm_compute. exact I. }
  assert (Hord : range_order (devices p) order).
  { replace (devices p) with (list_to_map order : gmap string nat)
      by (vm_compute; reflexivity).
    apply range_order_list_to_map. apply (bool_decide_unpack _). vm_compute. exact I. }
  assert (Hws : Forall (valid_wakeup h p) ws).
  { apply Forall_cons_2; [split; [exact Hord|simpl; lia]|].
    apply Forall_cons_2; [split; [exact Hord|exact I]|]. apply Forall_nil_2. }
  split; [exact Hwf|]. split; [exact Hord|]. split; [exact Hws|].
  split; [vm_compute; reflexivity|].
  destruct (ListAndWatch_full_snapshots h p order None ws Hwf Hord Hws)
    as (h' & sent & e & Hrun & Hwf' & _).
  exists h', sent, e. split; [exact Hrun|exact Hwf'].
Defined.

Lemma ListAndWatch_loop_end (p : PPUDevicePlugin) (ws : list wakeup) :
  ∀ (h h' : heap) (sent sent' : list ListAndWatchResponse) (e : watch_end),
    ListAndWatch_loop h p ws sent = Some (h', sent', e) →
    match e with
    | blocked => Forall goes_on ws ∧ length sent' = (length sent + length ws)%nat
    | returned None =>
        ∃ ws1 w ws2, ws = ws1 ++ w :: ws2 ∧ Forall goes_on ws1
                     ∧ w_case w = recvStop
                     ∧ length sent' = (length sent + length ws1)%nat
    | returned (Some err) =>
        ∃ ws1 w ws2, ws = ws1 ++ w :: ws2 ∧ Forall goes_on ws1
                     ∧ (∃ device, w_case w = recvHealth device)
                     ∧ w_sendErr w = Some err
                     ∧ length sent' = (length sent + length ws1)%nat
    end.
Proof.
  induction ws as [|w ws IH]; intros h h' sent sent' e.
  - simpl. intros [= <- <- <-]. split; [constructor|simpl; lia].
  - cbn [ListAndWatch_loop]. destruct (w_case w) as [device|] eqn:Hcase.
    + destruct (updateDevice h p device) as [h1|]; [|done]. simpl.
      destruct (marshal h1 (deviceList (w_order w))) as [resp|]; [|done]. simpl.
      destruct (w_sendErr w) as [err|] eqn:Hsend.
      * intros [= <- <- <-]. exists [], w, ws. split; [done|].
        split; [constructor|]. split; [eauto|]. split; [done|simpl; lia].
      * intros Hrun. specialize (IH _ _ _ _ _ Hrun).
        assert (Hgo : goes_on w) by (split; eauto).
        destruct e as [[err|]|].
        -- destruct IH as (ws1 & w' & ws2 & -> & Hall & Hw' & Herr & Hlen).
           exists (w :: ws1), w', ws2. split; [done|].
           split; [by constructor|]. split; [done|]. split; [done|].
           rewrite length_app in Hlen. simpl in *. lia.
        -- destruct IH as (ws1 & w' & ws2 & -> & Hall & Hw' & Hlen).
           exists (w :: ws1), w', ws2. split; [done|].
           split; [by constructor|]. split; [done|].
           rewrite length_app in Hlen. simpl in *. lia.
        -- destruct IH as [Hall Hlen]. split; [by constructor|].
           rewrite length_app in Hlen. simpl in *. lia.
    + intros [= <- <- <-]. exists [], w, ws. split; [done|].
      split; [constructor|]. split; [done|simpl; lia].
Qed.

(** X10. How a watch session ends.  If ListAndWatch is still blocked, the
    initial send and every resend succeeded, no stop was seen, and one
    message was sent for the start and one per wake-up.  If it returned nil,
    it did so at the first stop signal, after one message for the start and
    one per earlier wake-up, and ignored everything after it.  If it
    returned an error, that error is the one the failing Send gave: either
    the initial send failed and nothing was sent, or the resend of the first
    failing health update failed, and the messages sent are those before
    it. *)
Theorem ListAndWatch_end (h h' : heap) (p : PPUDevicePlugin)
    (order : list (string * addr)) (sendErr : option string) (ws : list wakeup)
    (sent : list ListAndWatchResponse) (e : watch_end) :
  ListAndWatch h p order sendErr ws = Some (h', sent, e) →
  match e with
  | blocked =>
      sendErr = None ∧ Forall goes_on ws ∧ length sent = S (length ws)
  | returned None =>
      sendErr = None
      ∧ ∃ ws1 w ws2, ws = ws1 ++ w :: ws2 ∧ Forall goes_on ws1
                     ∧ w_case w = recvStop ∧ length sent = S (length ws1)
  | returned (Some err) =>
      (sendErr = Some err ∧ sent = [] ∧ h' = h)
      ∨ (sendErr = None
         ∧ ∃ ws1 w ws2, ws = ws1 ++ w :: ws2 ∧ Forall goes_on ws1
                        ∧ (∃ device, w_case w = recvHealth device)
                        ∧ w_sendErr w = Some err ∧ length sent = S (length ws1))
  end.
Proof.
  unfold ListAndWatch.
  destruct (marshal h (deviceList order)) as [response|]; [|done]. simpl.
  destruct sendErr as [err0|].
  - intros [= <- <- <-]. by left.
  - intros Hrun. apply ListAndWatch_loop_end in Hrun.
    destruct e as [[err|]|]; simpl in Hrun.
    + right. split; [done|]. exact Hrun.
    + split; [done|]. exact Hrun.
    + destruct Hrun as [Hall Hlen]. done.
Qed.

Lemma ListAndWatch_end_witness :
  let h := [mkDevice "ppu-0" Healthy] in
  let p := mkPPUDevicePlugin "alibabacloud.com/ppu" 1 "/tmp" (<["ppu-0" := 0%nat]> ∅) in
  let order := [("ppu-0", 0%nat)] in
  let ws := [mkWakeup (recvHealth 0%nat) order None;
             mkWakeup (recvHealth 0%nat) order (Some "transport is closing");
             mkWakeup recvStop order None] in
  let snapshot := mkListAndWatchResponse [mkDevice "ppu-0" Healthy] in
  ListAndWatch h p order None ws
  = Some (h, [snapshot; snapshot], returned (Some "transport is closing"))
  ∧ ∃ ws1 w ws2, ws = ws1 ++ w :: ws2 ∧ Forall goes_on ws1
                 ∧ w_sendErr w = Some "transport is closing".
Proof.
  intros h p order ws snapshot.
  assert (Hrun : ListAndWatch h p order None ws
                 = Some (h, [snapshot; snapshot], returned (Some "transport is closing")))
    by (vm_compute; reflexivity).
  split; [exact Hrun|].
  pose proof (ListAndWatch_end h h p order None ws _ _ Hrun) as Hend.
  simpl in Hend. destruct Hend as [[Hbad _]|[_ (ws1 & w & ws2 & Hws & Hall & _ & Herr & _)]].
  - discriminate Hbad.
  - exists ws1, w, ws2. split; [exact Hws|]. split; [exact Hall|exact Herr].
Defined.

Lemma ListAndWatch_loop_monitor (p : PPUDevicePlugin) (h : heap) (ws : list wakeup) :
  wf h p →
  Forall (λ w, range_order (devices p) (w_order w) ∧ from_registry p w) ws →
  ∀ sent, ∃ sent' e, ListAndWatch_loop h p ws sent = Some (h, sent', e).
Proof.
  intros Hwf. induction 1 as [|w ws [Hord Hreg] _ IH]; intros sent.
  - by exists sent, blocked.
  - cbn [ListAndWatch_loop]. unfold from_registry in Hreg.
    destruct (w_case w) as [device|].
    + destruct Hreg as [id Hid]. rewrite (updateDevice_alias h p id device Hwf Hid).
      simpl. destruct (snapshot_ids h p (w_order w) Hwf Hord) as [-> _]. simpl.
      destruct (w_sendErr w) as [err|]; [by exists sent, (returned (Some err))|].
      apply IH.
    + by exists sent, (returned nil_error).
Qed.

(** X11. A watch session fed by the monitor never changes the registry.
    When every record a session receives is one the registry itself points
    to, as the records the Health Monitor sends are, the session's own steps
    leave the store untouched: run on any store satisfying the invariant,
    ListAndWatch does not panic and hands back that very store, however many
    updates it handled and however it ended. *)
Theorem ListAndWatch_fed_by_monitor (h : heap) (p : PPUDevicePlugin)
    (order : list (string * addr)) (sendErr : option string) (ws : list wakeup) :
  wf h p →
  range_order (devices p) order →
  Forall (λ w, range_order (devices p) (w_order w) ∧ from_registry p w) ws →
  ∃ sent e, ListAndWatch h p order sendErr ws = Some (h, sent, e).
Proof.
  intros Hwf Hord Hws. unfold ListAndWatch.
  destruct (snapshot_ids h p order Hwf Hord) as [-> _]. simpl.
  destruct sendErr as [err|]; [by exists [], (returned (Some err))|].
  apply (ListAndWatch_loop_monitor p h ws Hwf Hws).
Qed.

Lemma ListAndWatch_fed_by_monitor_witness :
  let h := [mkDevice "ppu-0" Healthy; mkDevice "ppu-1" Unhealthy] in
  let p := mkPPUDevicePlugin "alibabacloud.com/ppu" 2 "/tmp"
             (<["ppu-0" := 0%nat]> (<["ppu-1" := 1%nat]> ∅)) in
  let order := [("ppu-1", 1%nat); ("ppu-0", 0%nat)] in
  let ws := [mkWakeup (recvHealth 1%nat) order None; mkWakeup (recvHealth 0%nat) order None] in
  wf h p
  ∧ range_order (devices p) order
  ∧ ∃ sent e, ListAndWatch h p order None ws = Some (h, sent, e).
Proof.
  intros h p order ws.
  assert (Hwf : wf h p).
  { apply (bool_decide_unpack _). vm_compute. exact I. }
  assert (Hord : range_order (devices p) order).
  { replace (devices p) with (list_to_map order : gmap string nat)
      by (vm_compute; reflexivity).
    apply range_order_list_to_map. apply (bool_decide_unpack _). vm_compute. exact I. }
  assert (Hws : Forall (λ w, range_order (devices p) (w_order w) ∧ from_registry p w) ws).
  { apply Forall_cons_2; [split; [exact Hord|by exists "ppu-1"]|].
    apply Forall_cons_2; [split; [exact Hord|by exists "ppu-0"]|]. apply Forall_nil_2. }
  split; [exact Hwf|]. split; [exact Hord|].
  exact (ListAndWatch_fed_by_monitor h p order None ws Hwf Hord Hws).
Defined.





(** ** More on GetPreferredAllocation *)

Lemma selectAvailable_keeps (available selected : list string) (needed : Z) :
  (needed ≤ 0 ∨ ∀ id, id ∈ available → id ∈ selected) →
  selectAvailable available selected needed = selected.
Proof.
  intros Hdone. induction available as [|id available IH]; [done|].
  cbn [selectAvailable]. destruct (decide (needed ≤ 0)) as [|Hpos]; [done|].
  destruct Hdone as [|Hall]; [done|].
  rewrite alreadySelected_elem_of, bool_decide_eq_true_2 by (apply Hall; by left).
  apply IH. right. intros x Hx. apply Hall. by right.
Qed.

Lemma selectAvailable_exhausts (available selected : list string) (needed : Z) :
  let r := selectAvailable available selected needed in
  needed - (Z.of_nat (length r) - Z.of_nat (length selected)) ≤ 0
  ∨ ∀ id, id ∈ available → id ∈ r.
Proof.
  revert selected needed.
  induction available as [|id available IH]; intros selected needed r.
  - right. intros x Hx. by apply elem_of_nil in Hx.
  - unfold r. cbn [selectAvailable].
    destruct (decide (needed ≤ 0)) as [Hle|Hpos]; [left; lia|].
    rewrite alreadySelected_elem_of.
    destruct (bool_decide (id ∈ selected)) eqn:Hin.
    + apply bool_decide_eq_true in Hin.
      destruct (IH selected needed) as [Hfull|Hall]; [by left|right].
      intros x [->|Hx]%elem_of_cons; [|by apply Hall].
      destruct (selectAvailable_extends available selected needed) as (extra & -> & _).
      apply elem_of_app. by left.
    + destruct (IH (selected ++ [id]) (needed - 1)) as [Hfull|Hall].
      * left. rewrite length_app in Hfull. simpl in Hfull. lia.
      * right. intros x [->|Hx]%elem_of_cons; [|by apply Hall].
        destruct (selectAvailable_extends available (selected ++ [id]) (needed - 1))
          as (extra & -> & _).
        apply elem_of_app. left. apply elem_of_app. right. by left.
Qed.

Lemma selectAvailable_prefix (available selected : list string) (n n' : Z) :
  n ≤ n' →
  selectAvailable available selected n `prefix_of` selectAvailable available selected n'.
Proof.
  revert selected n n'.
  induction available as [|id available IH]; intros selected n n' Hle; [done|].
  cbn [selectAvailable]. destruct (decide (n ≤ 0)) as [Hn|Hn].
  - destruct (selectAvailable_extends (id :: available) selected n') as (extra & Heq & _).
    cbn [selectAvailable] in Heq. rewrite Heq. by apply prefix_app_r.
  - rewrite decide_False by lia.
    destruct (alreadySelected selected id); apply IH; lia.
Qed.

Lemma selectAvailable_length (available selected : list string) (needed : Z) :
  0 ≤ needed →
  length (selectAvailable available selected needed)
  = (length selected
     + Z.to_nat needed `min`
       size ((list_to_set available : gset string) ∖ list_to_set selected))%nat.
Proof.
  revert selected needed.
  induction available as [|id available IH]; intros selected needed Hn.
  - simpl. replace ((∅ : gset string) ∖ list_to_set selected) with (∅ : gset string)
      by set_solver.
    rewrite size_empty. lia.
  - cbn [selectAvailable]. destruct (decide (needed ≤ 0)) as [Hle|Hpos].
    { replace needed with 0 by lia. simpl. lia. }
    rewrite alreadySelected_elem_of.
    destruct (bool_decide (id ∈ selected)) eqn:Hin.
    + apply bool_decide_eq_true in Hin. rewrite IH by done.
      replace ((list_to_set (id :: available) : gset string) ∖ list_to_set selected)
        with ((list_to_set available : gset string) ∖ list_to_set selected);
        [done|].
      simpl. set_solver.
    + apply bool_decide_eq_false in Hin. rewrite IH by lia.
      rewrite length_app. simpl length.
      replace ((list_to_set (id :: available) : gset string) ∖ list_to_set selected)
        with ({[id]} ∪ ((list_to_set available : gset string)
                        ∖ list_to_set (selected ++ [id]))).
      * pose proof (@size_union string (gset string) _ _ _ _ _ _ _ _ _ {[id]}
                      ((list_to_set available : gset string)
                       ∖ list_to_set (selected ++ [id]))) as Hsize.
        rewrite Hsize by set_solver.
        pose proof (@size_singleton string (gset string) _ _ _ _ _ _ _ _ _ id) as Hone.
        rewrite Hone. lia.
      * simpl. rewrite list_to_set_app_L. simpl.
        apply set_eq. intros x. destruct (decide (x = id)) as [->|Hne]; set_solver.
Qed.

(** X13. The preferred list is stable under resubmission: passing the list
    GetPreferredAllocation returned for a container back as its
    must-include list, with the same available ids and desired count,
    returns that same list. *)
Theorem preferred_list_resubmitted (p : PPUDevicePlugin)
    (containerRequest : ContainerPreferredAllocationRequest) (preferred : list string) :
  (GetPreferredAllocation p (mkPreferredAllocationRequest [containerRequest])).1
  = mkPreferredAllocationResponse [mkContainerPreferredAllocationResponse preferred] →
  GetPreferredAllocation p
    (mkPreferredAllocationRequest
       [mkContainerPreferredAllocationRequest
          (AvailableDeviceIDs containerRequest) preferred
          (AllocationSize containerRequest)])
  = (mkPreferredAllocationResponse [mkContainerPreferredAllocationResponse preferred],
     nil_error).
Proof.
  rewrite GetPreferredAllocation_map. simpl. intros [= <-].
  unfold GetPreferredAllocation. simpl. do 4 f_equal.
  rewrite (selectedDeviceIDs_unfold (mkContainerPreferredAllocationRequest _ _ _)).
  simpl. apply selectAvailable_keeps.
  rewrite selectedDeviceIDs_unfold.
  pose proof (selectAvailable_exhausts (AvailableDeviceIDs containerRequest)
                (MustIncludeDeviceIDs containerRequest)
                (AllocationSize containerRequest
                 - Z.of_nat (length (MustIncludeDeviceIDs containerRequest)))) as Hex.
  cbv zeta in Hex. destruct Hex as [Hfull|Hall]; [left; lia|by right].
Qed.

Lemma preferred_list_resubmitted_witness :
  let p := NewPPUDevicePlugin "alibabacloud.com/ppu" 0 "/tmp" in
  GetPreferredAllocation p
    (mkPreferredAllocationRequest
       [mkContainerPreferredAllocationRequest ["b"; "a"; "c"] ["a"; "b"; "c"] 5])
  = (mkPreferredAllocationResponse
       [mkContainerPreferredAllocationResponse ["a"; "b"; "c"]], nil_error).
Proof.
  intros p.
  apply (preferred_list_resubmitted p
           (mkContainerPreferredAllocationRequest ["b"; "a"; "c"] ["a"] 5)).
  vm_compute. reflexivity.
Defined.

(** X14. Asking for more never reshuffles the preferred list: for the same
    available and must-include ids, the list returned for a desired count
    is a prefix of the list returned for any larger desired count. *)
Theorem preferred_list_grows (available mustInclude : list string) (desired desired' : Z) :
  desired ≤ desired' →
  selectedDeviceIDs (mkContainerPreferredAllocationRequest available mustInclude desired)
  `prefix_of`
  selectedDeviceIDs (mkContainerPreferredAllocationRequest available mustInclude desired').
Proof.
  intros Hle. rewrite !selectedDeviceIDs_unfold. simpl.
  apply selectAvailable_prefix. lia.
Qed.

Lemma preferred_list_grows_witness :
  selectedDeviceIDs (mkContainerPreferredAllocationRequest ["c"; "a"; "d"; "c"; "e"] ["a"] 2)
  = ["a"; "c"]
  ∧ selectedDeviceIDs (mkContainerPreferredAllocationRequest ["c"; "a"; "d"; "c"; "e"] ["a"] 4)
    = ["a"; "c"; "d"; "e"]
  ∧ selectedDeviceIDs (mkContainerPreferredAllocationRequest ["c"; "a"; "d"; "c"; "e"] ["a"] 2)
    `prefix_of`
    selectedDeviceIDs (mkContainerPreferredAllocationRequest ["c"; "a"; "d"; "c"; "e"] ["a"] 4).
Proof.
  split; [vm_compute; reflexivity|]. split; [vm_compute; reflexivity|].
  apply (preferred_list_grows ["c"; "a"; "d"; "c"; "e"] ["a"] 2 4). lia.
Defined.

(** X15. The size of the preferred list.  When the must-include ids do not
    already exceed the desired count, the preferred list has exactly
    min(desired count, number of must-include ids + number of distinct
    available ids that are not must-include ids) entries: it is as long as
    desired whenever enough distinct candidates are available, and shorter
    only when they run out. *)
Theorem preferred_list_size (containerRequest : ContainerPreferredAllocationRequest) :
  let mustInclude := MustIncludeDeviceIDs containerRequest in
  let available := AvailableDeviceIDs containerRequest in
  let desired := AllocationSize containerRequest in
  Z.of_nat (length mustInclude) ≤ desired →
  length (selectedDeviceIDs containerRequest)
  = (Z.to_nat desired
     `min` (length mustInclude
            + size ((list_to_set available : gset string) ∖ list_to_set mustInclude)))%nat.
Proof.
  intros mustInclude available desired Hle.
  rewrite selectedDeviceIDs_unfold. fold mustInclude available desired.
  rewrite selectAvailable_length by lia. lia.
Qed.

Lemma preferred_list_size_witness :
  let containerRequest :=
    mkContainerPreferredAllocationRequest ["b"; "a"; "b"; "c"] ["a"] 5 in
  Z.of_nat (length (MustIncludeDeviceIDs containerRequest)) ≤ AllocationSize containerRequest
  ∧ selectedDeviceIDs containerRequest = ["a"; "b"; "c"]
  ∧ length (selectedDeviceIDs containerRequest)
    = (5 `min` (1 + size ((list_to_set ["b"; "a"; "b"; "c"] : gset string)
                          ∖ list_to_set ["a"])))%nat.
Proof.
  intros containerRequest.
  assert (Hle : Z.of_nat (length (MustIncludeDeviceIDs containerRequest))
                ≤ AllocationSize containerRequest) by (simpl; lia).
  split; [exact Hle|]. split; [vm_compute; reflexivity|].
  exact (preferred_list_size containerRequest Hle).
Defined.

(** X16. A preferred list made of allocatable ids can be allocated as it
    stands: when every must-include id and every available id of a
    container is registered and Healthy, Allocate asked for the preferred
    list grants exactly that list. *)
Theorem Allocate_preferred_list (h : heap) (p : PPUDevicePlugin)
    (containerRequest : ContainerPreferredAllocationRequest) :
  wf h p →
  Forall (registeredHealthy h p) (MustIncludeDeviceIDs containerRequest) →
  Forall (registeredHealthy h p) (AvailableDeviceIDs containerRequest) →
  allocatedDevices h p (mkContainerAllocateRequest (selectedDeviceIDs containerRequest))
  = Some (selectedDeviceIDs containerRequest).
Proof.
  intros Hwf Hmust Havail. rewrite allocatedDevices_filter by done. simpl. f_equal.
  rewrite selectedDeviceIDs_unfold.
  destruct (selectAvailable_extends (AvailableDeviceIDs containerRequest)
              (MustIncludeDeviceIDs containerRequest)
              (AllocationSize containerRequest
               - Z.of_nat (length (MustIncludeDeviceIDs containerRequest))))
    as (extra & -> & _ & Hsub & _).
  assert (Hall : Forall (registeredHealthy h p)
                   (MustIncludeDeviceIDs containerRequest ++ extra)).
  { apply Forall_app. split; [done|]. apply Forall_forall. intros id Hid.
    destruct (Hsub id Hid) as [_ Hin]. rewrite Forall_forall in Havail. by apply Havail. }
  induction Hall as [|id l Hid _ IH]; [done|].
  by rewrite filter_cons, decide_True, IH.
Qed.

Lemma Allocate_preferred_list_witness :
  let h := [mkDevice "ppu-0" Healthy; mkDevice "ppu-1" Healthy; mkDevice "ppu-2" Healthy] in
  let p := mkPPUDevicePlugin "alibabacloud.com/ppu" 3 "/tmp"
             (<["ppu-0" := 0%nat]> (<["ppu-1" := 1%nat]> (<["ppu-2" := 2%nat]> ∅))) in
  let containerRequest :=
    mkContainerPreferredAllocationRequest ["ppu-2"; "ppu-0"; "ppu-1"] ["ppu-0"] 2 in
  wf h p
  ∧ selectedDeviceIDs containerRequest = ["ppu-0"; "ppu-2"]
  ∧ allocatedDevices h p (mkContainerAllocateRequest (selectedDeviceIDs containerRequest))
    = Some (selectedDeviceIDs containerRequest).
Proof.
  intros h p containerRequest.
  assert (Hwf : wf h p).
  { apply (bool_decide_unpack _). vm_compute. exact I. }
  split; [exact Hwf|]. split; [vm_compute; reflexivity|].
  apply (Allocate_preferred_list h p containerRequest Hwf).
  - apply Forall_cons_2; [|apply Forall_nil_2].
    apply (bool_decide_unpack _). vm_compute. exact I.
  - apply Forall_cons_2; [apply (bool_decide_unpack _); vm_compute; exact I|].
    apply Forall_cons_2; [apply (bool_decide_unpack _); vm_compute; exact I|].
    apply Forall_cons_2; [apply (bool_decide_unpack _); vm_compute; exact I|].
    apply Forall_nil_2.
Defined.

(** ** Start-up *)

Section startup_properties.

Variable filepath_Join : string → string → string.
Variable filepath_Dir : string → string.
Variable world : outside.

(** Closes the case of a start-up stopped by a failing call: the calls made
    are an initial part of the full sequence, and [tac] refutes that every
    call answered without an error. *)
Ltac start_stops tac :=
  simpl; split; [by eexists|];
  split; [intros Hnil; discriminate Hnil|];
  split; [intros Hnil; discriminate Hnil|tac].

Lemma Start_state (h : heap) (p : PPUDevicePlugin) :
  (Start filepath_Join filepath_Dir world h p).1.1 = (initDevices h p).1.
Proof.
  unfold Start, initDevices.
  destruct (foldl initDevices_body (h, p) (seqZ 0 (deviceCount p))) as [h1 p1].
  destruct (serve filepath_Join filepath_Dir world p1) as [served [err|]]; [done|].
  by destruct (register filepath_Join world p1) as [registered [err|]].
Qed.

(** X17. Start stops at the first step that fails.  Whatever the operating
    system, gRPC and the kubelet answer, the registry is initialised first;
    the outside calls Start then makes are an initial part of the full
    sequence MkdirAll, Remove, Listen, Serve, Dial and Close on the plugin
    socket, Dial, Register and Close on the kubelet socket; when Start
    returns nil it has made the whole sequence; and it returns nil exactly
    when every call answered without an error, a stale socket that does not
    exist counting as removed. *)
Theorem Start_runs_in_order (h : heap) (p : PPUDevicePlugin) :
  let r := Start filepath_Join filepath_Dir world h p in
  let p' := (initDevices h p).1.2 in
  r.1.1 = (initDevices h p).1
  ∧ r.1.2 `prefix_of` all_calls filepath_Join filepath_Dir p'
  ∧ (r.2 = None → r.1.2 = all_calls filepath_Join filepath_Dir p')
  ∧ (r.2 = None ↔ all_answers_ok filepath_Join filepath_Dir world p').
Proof.
  intros r p'. split; [apply Start_state|].
  unfold r, p', Start, initDevices. clear r p'.
  destruct (foldl initDevices_body (h, p) (seqZ 0 (deviceCount p))) as [h1 p']. simpl.
  unfold all_calls, all_answers_ok, serve, register, dial.
  destruct (answer_MkdirAll world (filepath_Dir (socket filepath_Join p'))) as [e1|].
  { start_stops ltac:(intros (Hbad & _); discriminate Hbad). }
  destruct (answer_Remove world (socket filepath_Join p')) as [[e2 []]|].
  2:{ start_stops ltac:(intros (_ & [Hbad|[e Hbad]] & _); discriminate Hbad). }
  all: destruct (answer_Listen world (socket filepath_Join p')) as [e3|];
    [start_stops ltac:(intros (_ & _ & Hbad & _); discriminate Hbad)|].
  all: simpl; destruct (answer_Dial world (socket filepath_Join p')) as [e4|];
    [start_stops ltac:(intros (_ & _ & _ & Hbad & _); discriminate Hbad)|].
  all: simpl;
    destruct (answer_Dial world (filepath_Join (socketPath p') KubeletSocket)) as [e5|];
    [start_stops ltac:(intros (_ & _ & _ & _ & Hbad & _); discriminate Hbad)|].
  all: simpl;
    destruct (answer_Register world
                (mkRegisterRequest v1beta1_Version PPUSocket (resourceName p'))) as [e6|];
    [start_stops ltac:(intros (_ & _ & _ & _ & _ & Hbad); discriminate Hbad)|].
  all: simpl; split; [done|]; split; [done|]; split; [intros _|done];
    repeat split; eauto.
Qed.

(** X18. What a failed Start reports.  The error of a failed Start is never
    the one for device initialisation.  It is either "failed to start gRPC
    server: ..." and then the kubelet was never asked to register, or
    "failed to register with kubelet: ..." and then the six calls that
    bring the plugin's own server up were all made. *)
Theorem Start_failure (h : heap) (p : PPUDevicePlugin) (msg : string) :
  let r := Start filepath_Join filepath_Dir world h p in
  let p' := (initDevices h p).1.2 in
  r.2 = Some msg →
  (∃ cause, msg = "failed to start gRPC server: " +:+ cause
            ∧ (∀ request, kubelet_Register request ∉ r.1.2)
            ∧ (length r.1.2 ≤ 5)%nat)
  ∨ (∃ cause, msg = "failed to register with kubelet: " +:+ cause
              ∧ take 6 r.1.2 = take 6 (all_calls filepath_Join filepath_Dir p')).
Proof.
  intros r p'. unfold r, p', Start, initDevices. clear r p'.
  destruct (foldl initDevices_body (h, p) (seqZ 0 (deviceCount p))) as [h1 p']. simpl.
  unfold all_calls, serve, register, dial.
  assert (Hnot : ∀ (cs : list call),
            Forall (λ c, ∀ request, c ≠ kubelet_Register request) cs →
            ∀ request, kubelet_Register request ∉ cs).
  { intros cs Hcs request Hin. rewrite Forall_forall in Hcs.
    by apply (Hcs _ Hin request). }
  destruct (answer_MkdirAll world (filepath_Dir (socket filepath_Join p'))) as [e1|].
  { simpl. intros [= <-]. left. eexists. split; [done|].
    split; [apply Hnot; by repeat constructor|simpl; lia]. }
  destruct (answer_Remove world (socket filepath_Join p')) as [[e2 []]|].
  2:{ simpl. intros [= <-]. left. eexists. split; [done|].
      split; [apply Hnot; by repeat constructor|simpl; lia]. }
  all: destruct (answer_Listen world (socket filepath_Join p')) as [e3|];
    [simpl; intros [= <-]; left; eexists; split; [done|];
     split; [apply Hnot; by repeat constructor|simpl; lia]|].
  all: simpl; destruct (answer_Dial world (socket filepath_Join p')) as [e4|];
    [simpl; intros [= <-]; left; eexists; split; [done|];
     split; [apply Hnot; by repeat constructor|simpl; lia]|].
  all: simpl;
    destruct (answer_Dial world (filepath_Join (socketPath p') KubeletSocket)) as [e5|];
    [simpl; intros [= <-]; right; eexists; by split|].
  all: simpl;
    destruct (answer_Register world
                (mkRegisterRequest v1beta1_Version PPUSocket (resourceName p'))) as [e6|];
    [simpl; intros [= <-]; right; eexists; by split|].
  all: simpl; intros Hbad; discriminate Hbad.
Qed.

End startup_properties.

Lemma Start_failure_witness :
  let join := λ a b : string, a +:+ "/" +:+ b in
  let dir := λ _ : string, "/var/lib/kubelet/device-plugins" in
  let world := mkOutside (λ _, None) (λ _, Some ("no such file or directory", true))
                         (λ _, Some "address already in use") (λ _, None) (λ _, None) in
  let p := NewPPUDevicePlugin "alibabacloud.com/ppu" 2 "/var/lib/kubelet/device-plugins" in
  (Start join dir world [] p).2
  = Some ("failed to start gRPC server: failed to listen on socket "
          +:+ "/var/lib/kubelet/device-plugins/ppu.sock: address already in use")
  ∧ ∀ request, kubelet_Register request ∉ (Start join dir world [] p).1.2.
Proof.
  intros join dir world p.
  assert (Hrun : (Start join dir world [] p).2
                 = Some ("failed to start gRPC server: failed to listen on socket "
                         +:+ "/var/lib/kubelet/device-plugins/ppu.sock: address already in use"))
    by (vm_compute; reflexivity).
  split; [exact Hrun|].
  destruct (Start_failure join dir world [] p _ Hrun)
    as [(cause & _ & Hnot & _)|(cause & Hmsg & _)].
  - exact Hnot.
  - vm_compute in Hmsg. discriminate Hmsg.
Defined.
